(** * Cross-file import analysis ([remove_unused_imports/_cross_file.py])

    A shallow embedding of [CrossFileAnalyzer] and of the value types it
    works on, followed by the properties of the cascade, the re-export
    detection, the implicit re-export report and the external usage table. *)

From stdpp Require Import gmap strings list fin_maps fin_sets.

(** ** Data model *)

(** A [pathlib.Path] is modelled by its string form. *)
Abbreviation Path := string (only parsing).

(** Modelled from the spec: the declaration of [ImportInfo] ([_data.py]) is
    not part of the sources at hand.  The analyzer reads only [name], the
    name bound in the importing file; the module and the line stand for the
    rest of the binding (source module, position). *)
Record ImportInfo := mkImportInfo {
  name : string;
  module : string;
  lineno : nat;
}.

(** Modelled from the spec: the declaration of [ModuleInfo] ([_data.py]) is
    not part of the sources at hand.  [exports] holds the names listed in
    [__all__]; the analyzer applies [in] to it without any test for absence
    (where a field may be [None], as [ImportEdge.imported], the code tests it),
    so it is a collection of names, empty when nothing is listed.  [has_all]
    records whether the file has an [__all__] assignment at all ("absent,
    distinct from empty"); no code of the analyzer reads it. *)
Record ModuleInfo := mkModuleInfo {
  imports : list ImportInfo;
  defined_names : gset string;
  has_all : bool;
  exports : gset string;
}.

(** Modelled from the spec: the declaration of [ImportEdge] ([_data.py]) is
    not part of the sources at hand. *)
Record ImportEdge := mkImportEdge {
  importer : Path;
  imported : option Path;
  module_name : string;
  names : gset string;
  is_external : bool;
}.

(** Modelled from the spec: the declaration of [ImplicitReexport]
    ([_data.py]) is not part of the sources at hand. *)
Record ImplicitReexport := mkImplicitReexport {
  source_file : Path;
  import_name : string;
  used_by : gset Path;
}.

(** Modelled from the spec: [ImportGraph] ([_graph.py]) is not part of the
    sources at hand.  [nodes] is a dict keyed by path, [edges] a list in
    which parallel edges are kept. *)
Record ImportGraph := mkImportGraph {
  nodes : gmap Path ModuleInfo;
  edges : list ImportEdge;
}.

(** Modelled from the spec: [ImportGraph.get_importers] ("importers_of(file)")
    is not part of the sources at hand: the edges whose target is the file. *)
Definition get_importers (graph : ImportGraph) (file_path : Path) : list ImportEdge :=
  filter (λ edge, imported edge = Some file_path) (edges graph).

Record CrossFileResult := mkCrossFileResult {
  unused_imports : gmap Path (list ImportInfo);
  implicit_reexports : list ImplicitReexport;
  external_usage : gmap string (gset Path);
  circular_imports : list (list Path);
}.

(** The two errors [read_text] is guarded against. *)
Inductive ReadError := OSError | UnicodeDecodeError.

(** ** Iteration orders

    A Python set of strings is visited in an order that depends on the hash
    seed of the run, and a dict in the order its keys were inserted.  The
    order in which a set of names is visited, and the order in which the
    items of the single-file table are visited, are left open: any
    enumeration will do. *)
Record IterOrder := mkIterOrder {
  set_iter : gset string → list string;
  set_iter_perm : ∀ s, set_iter s ≡ₚ elements s;
  items_iter : gmap Path (list ImportInfo) → list (Path * list ImportInfo);
  items_iter_perm : ∀ m, items_iter m ≡ₚ map_to_list m;
}.

(** ** Dicts whose insertion order is observable

    [reexported] is a [defaultdict(set)] whose items are later visited in
    insertion order to build the list of implicit re-exports: it is a list of
    items, a new key going to the end. *)
Definition odict := list (Path * gset string).

Fixpoint od_get (d : odict) (k : Path) : gset string :=
  match d with
  | [] => ∅
  | (k', s) :: d' => if decide (k' = k) then s else od_get d' k
  end.

(** [d[k].add(n)] on a [defaultdict(set)]. *)
Fixpoint od_add (d : odict) (k : Path) (n : string) : odict :=
  match d with
  | [] => [(k, {[n]})]
  | (k', s) :: d' =>
      if decide (k' = k) then (k', {[n]} ∪ s) :: d'
      else (k', s) :: od_add d' k n
  end.

(** [removed.get(path, set())] and [all_removed[path]] read as a set. *)
Definition removed_of (removed : gmap Path (gset string)) (file_path : Path) : gset string :=
  default ∅ (removed !! file_path).

Section Analyzer.

(** The file system, the single-file analyzer ([_detection.py]) and the
    cycle search of the graph ([_graph.py]) are not under analysis here. *)
Variable read_text : Path → ReadError + string.
Variable find_unused_imports : string → list ImportInfo.
Variable find_cycles : ImportGraph → list (list Path).
Variable o : IterOrder.
Variable graph : ImportGraph.

(** *** [_find_reexported_imports] *)

Definition reexport_name (imported_file : Path) (module_info : ModuleInfo)
    (reexported : odict) (name0 : string) : odict :=
  let import_names_in_file : gset string := list_to_set (name <$> imports module_info) in
  let defined_in_file := defined_names module_info in
  if decide (name0 ∈ import_names_in_file ∧ name0 ∉ defined_in_file)
  then od_add reexported imported_file name0
  else reexported.

Definition reexport_edge (removed : gmap Path (gset string))
    (reexported : odict) (edge : ImportEdge) : odict :=
  if is_external edge then reexported
  else match imported edge with
  | None => reexported
  | Some imported_file =>
      let imported_names := names edge in
      let importer_removed := removed_of removed (importer edge) in
      let active_names := imported_names ∖ importer_removed in
      if decide (active_names = ∅) then reexported
      else match nodes graph !! imported_file with
      | None => reexported
      | Some module_info =>
          foldl (reexport_name imported_file module_info) reexported
            (set_iter o active_names)
      end
  end.

Definition _find_reexported_imports (removed_imports : option (gmap Path (gset string))) : odict :=
  let removed := default ∅ removed_imports in
  foldl (reexport_edge removed) [] (edges graph).

(** *** [_get_single_file_unused] *)

(** One entry per node whose source can be read and has unused imports;
    a node whose read fails is skipped ([continue]). *)
Definition _get_single_file_unused : gmap Path (list ImportInfo) :=
  map_imap (λ file_path (_ : ModuleInfo),
    match read_text file_path with
    | inl _ => None
    | inr source =>
        let unused := find_unused_imports source in
        match unused with [] => None | _ :: _ => Some unused end
    end) (nodes graph).

(** *** The cascade of [analyze] *)

(** The body of [for imp in unused]; the state is [all_removed] and the
    flag [changed]. *)
Definition mark_import (reexported_names : gset string) (file_path : Path)
    (st : gmap Path (gset string) * bool) (imp : ImportInfo)
    : gmap Path (gset string) * bool :=
  let '(all_removed, changed) := st in
  if decide (name imp ∈ reexported_names) then st
  else if decide (name imp ∈ removed_of all_removed file_path) then st
  else (<[file_path := {[name imp]} ∪ removed_of all_removed file_path]> all_removed, true).

(** The body of [for file_path, unused in single_file_unused.items()]. *)
Definition cascade_file (reexported : odict)
    (st : gmap Path (gset string) * bool) (item : Path * list ImportInfo)
    : gmap Path (gset string) * bool :=
  let '(file_path, unused) := item in
  let reexported_names := od_get reexported file_path in
  foldl (mark_import reexported_names file_path) st unused.

(** One turn of the [while changed] loop: the new [all_removed] and the
    value of [changed] at the end of the turn. *)
Definition cascade_pass (single_file_unused : gmap Path (list ImportInfo))
    (all_removed : gmap Path (gset string)) : gmap Path (gset string) * bool :=
  let reexported := _find_reexported_imports (Some all_removed) in
  foldl (cascade_file reexported) (all_removed, false)
    (items_iter o single_file_unused).

(** The [while changed] loop, with a bound on the number of turns; [None]
    when the bound is reached with [changed] still set. *)
Fixpoint cascade_loop (fuel : nat) (single_file_unused : gmap Path (list ImportInfo))
    (all_removed : gmap Path (gset string)) : option (gmap Path (gset string)) :=
  match fuel with
  | 0 => None
  | S fuel' =>
      let '(all_removed', changed) := cascade_pass single_file_unused all_removed in
      if changed then cascade_loop fuel' single_file_unused all_removed'
      else Some all_removed'
  end.

(** The number of single-file unused imports, all files together. *)
Definition total_unused (single_file_unused : gmap Path (list ImportInfo)) : nat :=
  map_fold (λ _ unused acc, length unused + acc) 0 single_file_unused.

(** The total size of a removal map. *)
Definition total_removed (all_removed : gmap Path (gset string)) : nat :=
  map_fold (λ _ removed_names acc, size removed_names + acc) 0 all_removed.

(** The stable removal map: the loop run with one turn more than there are
    single-file unused imports. *)
Definition cascade (single_file_unused : gmap Path (list ImportInfo))
    : option (gmap Path (gset string)) :=
  cascade_loop (S (total_unused single_file_unused)) single_file_unused ∅.

(** [Build unused_imports from the stable removed set]. *)
Definition build_unused_imports (single_file_unused : gmap Path (list ImportInfo))
    (all_removed : gmap Path (gset string)) : gmap Path (list ImportInfo) :=
  map_imap (λ file_path removed_names,
    let unused_imports :=
      filter (λ imp, name imp ∈ removed_names)
        (default [] (single_file_unused !! file_path)) in
    match unused_imports with [] => None | _ :: _ => Some unused_imports end)
    all_removed.

(** *** [_find_implicit_reexports] *)

Definition find_used_by (file_path : Path) (name0 : string) : gset Path :=
  list_to_set (importer <$>
    filter (λ edge, name0 ∈ names edge) (get_importers graph file_path)).

Definition implicit_of_file (item : Path * gset string) : list ImplicitReexport :=
  let '(file_path, reexported_names) := item in
  match nodes graph !! file_path with
  | None => []
  | Some module_info =>
      let exports0 := exports module_info in
      name0 ← set_iter o reexported_names;
      if decide (name0 ∉ exports0)
      then [mkImplicitReexport file_path name0 (find_used_by file_path name0)]
      else []
  end.

Definition _find_implicit_reexports (reexported : odict) : list ImplicitReexport :=
  reexported ≫= implicit_of_file.

(** *** [_aggregate_external_usage] *)

Definition usage_edge (usage : gmap string (gset Path)) (edge : ImportEdge)
    : gmap string (gset Path) :=
  if is_external edge
  then <[module_name edge := {[importer edge]} ∪ default ∅ (usage !! module_name edge)]> usage
  else usage.

Definition _aggregate_external_usage : gmap string (gset Path) :=
  foldl usage_edge ∅ (edges graph).

(** *** [analyze] *)

Definition analyze : option CrossFileResult :=
  let single_file_unused := _get_single_file_unused in
  all_removed ← cascade single_file_unused;
  let final_reexported := _find_reexported_imports (Some all_removed) in
  Some {| unused_imports := build_unused_imports single_file_unused all_removed;
          implicit_reexports := _find_implicit_reexports final_reexported;
          external_usage := _aggregate_external_usage;
          circular_imports := find_cycles graph |}.

(** *** Notions the properties are stated with *)

(** The two nested [for] loops of a turn visit the pairs of a file and one
    of its single-file unused imports, one after the other. *)
Definition flat_items (items : list (Path * list ImportInfo)) : list (Path * ImportInfo) :=
  item ← items; pair item.1 <$> item.2.

Definition mark_pair (reexported : odict) (st : gmap Path (gset string) * bool)
    (p : Path * ImportInfo) : gmap Path (gset string) * bool :=
  mark_import (od_get reexported p.1) p.1 st p.2.

(** The edge makes [f] re-export [n], the names in [removed] being taken
    as removed from their importers. *)
Definition reexports_by (removed : gmap Path (gset string)) (f : Path) (n : string)
    (edge : ImportEdge) : Prop :=
  is_external edge = false ∧ imported edge = Some f ∧
  n ∈ names edge ∧ (n ∉ removed_of removed (importer edge)) ∧
  (∃ module_info, nodes graph !! f = Some module_info ∧
    (∃ imp, imp ∈ imports module_info ∧ name imp = n) ∧
    (n ∉ defined_names module_info)).

(** [U f]: the single-file unused imports of [f]. *)
Definition flagged (single_file_unused : gmap Path (list ImportInfo)) (f : Path)
    : list ImportInfo :=
  default [] (single_file_unused !! f).

(** [R f] for a removal map: the names re-exported from [f]. *)
Definition reexported_from (all_removed : gmap Path (gset string)) (f : Path) : gset string :=
  od_get (_find_reexported_imports (Some all_removed)) f.

(** The removal map after one more turn of the loop, and whether the turn
    set [changed]. *)
Definition turn (single_file_unused : gmap Path (list ImportInfo))
    (all_removed : gmap Path (gset string)) : gmap Path (gset string) :=
  (cascade_pass single_file_unused all_removed).1.

Definition turn_changed (single_file_unused : gmap Path (list ImportInfo))
    (all_removed : gmap Path (gset string)) : bool :=
  (cascade_pass single_file_unused all_removed).2.

(** The removal map after [k] turns, from the empty map. *)
Definition removed_after (single_file_unused : gmap Path (list ImportInfo)) (k : nat)
    : gmap Path (gset string) :=
  Nat.iter k (turn single_file_unused) ∅.

(** The pairs of a file and a name removed in it, and the pairs of a file
    and the name of an import flagged in it. *)
Definition removed_pairs (all_removed : gmap Path (gset string)) : gset (Path * string) :=
  map_fold (λ f removed_names acc, set_map (pair f) removed_names ∪ acc) ∅ all_removed.

Definition unused_pairs (single_file_unused : gmap Path (list ImportInfo))
    : gset (Path * string) :=
  map_fold (λ f unused acc, list_to_set ((λ b, (f, name b)) <$> unused) ∪ acc)
    ∅ single_file_unused.

(** Every removed name is the name of a flagged import of the file. *)
Definition within_flagged (single_file_unused : gmap Path (list ImportInfo))
    (all_removed : gmap Path (gset string)) : Prop :=
  ∀ f n, n ∈ removed_of all_removed f →
    ∃ b, b ∈ flagged single_file_unused f ∧ name b = n.

(** Two removal maps that give every file the same set. *)
Definition same_removed (m1 m2 : gmap Path (gset string)) : Prop :=
  ∀ f, removed_of m1 f = removed_of m2 f.

(** No removed name is re-exported from its file. *)
Definition not_reexported (all_removed : gmap Path (gset string)) : Prop :=
  ∀ f n, n ∈ removed_of all_removed f → n ∉ reexported_from all_removed f.

(** A removal map that the rule of the loop cannot extend: it holds every
    flagged name that its file does not re-export. *)
Definition closed_under_rule (single_file_unused : gmap Path (list ImportInfo))
    (all_removed : gmap Path (gset string)) : Prop :=
  ∀ f b, b ∈ flagged single_file_unused f →
    name b ∉ reexported_from all_removed f → name b ∈ removed_of all_removed f.

(** *** [analyze_cross_file] *)

Definition analyze_cross_file : option CrossFileResult := analyze.

End Analyzer.

(** An edge that [_find_reexported_imports] passes over at once: marked
    external, or without an imported file. *)
Definition passed_over (edge : ImportEdge) : Prop :=
  is_external edge = true ∨ imported edge = None.

(** ** Scenarios *)

Open Scope string_scope.

Definition canonical_order : IterOrder :=
  {| set_iter := elements;
     set_iter_perm := λ s, reflexivity (elements s);
     items_iter := map_to_list;
     items_iter_perm := λ m, reflexivity (map_to_list m) |}.

Definition reversed_order : IterOrder :=
  {| set_iter := λ s, reverse (elements s);
     set_iter_perm := λ s, reverse_Permutation (elements s);
     items_iter := λ m, reverse (map_to_list m);
     items_iter_perm := λ m, reverse_Permutation (map_to_list m) |}.

(** A file system given by a table of sources; a path that is not in the
    table cannot be read. *)
Definition read_from (fs : gmap Path string) (file_path : Path) : ReadError + string :=
  match fs !! file_path with
  | Some source => inr source
  | None => inl OSError
  end.

(** A single-file analyzer given by a table from source text to its unused
    imports. *)
Definition detect_from (table : gmap string (list ImportInfo)) (source : string)
    : list ImportInfo :=
  default [] (table !! source).

Definition no_cycles (_ : ImportGraph) : list (list Path) := [].

Definition imp_X (m : string) : ImportInfo := mkImportInfo "X" m 1.
Definition imp_Y (m : string) : ImportInfo := mkImportInfo "Y" m 1.

(** [a.py] imports [X] from [b.py] and uses it, [b.py] imports [X] from
    [c.py], which defines it; no file has an [__all__]. *)
Definition plain_graph : ImportGraph :=
  {| nodes := {[ "a.py" := mkModuleInfo [imp_X "b"] ∅ false ∅;
                 "b.py" := mkModuleInfo [imp_X "c"] ∅ false ∅;
                 "c.py" := mkModuleInfo [] {["X"]} false ∅ ]};
     edges := [ mkImportEdge "a.py" (Some "b.py") "b" {["X"]} false;
                mkImportEdge "b.py" (Some "c.py") "c" {["X"]} false ] |}.

Definition plain_fs : gmap Path string :=
  {[ "a.py" := "from b import X; print(X)";
     "b.py" := "from c import X";
     "c.py" := "X = 1" ]}.

Definition plain_table : gmap string (list ImportInfo) :=
  {[ "from c import X" := [imp_X "c"] ]}.

(** [a1.py] and [a2.py] both import [X] from [b.py]; only [a1.py] uses it.
    [b.py] imports [X] from [c.py] and has an empty [__all__]. *)
Definition fork_graph : ImportGraph :=
  {| nodes := {[ "a1.py" := mkModuleInfo [imp_X "b"] ∅ false ∅;
                 "a2.py" := mkModuleInfo [imp_X "b"] ∅ false ∅;
                 "b.py" := mkModuleInfo [imp_X "c"] ∅ true ∅;
                 "c.py" := mkModuleInfo [] {["X"]} false ∅ ]};
     edges := [ mkImportEdge "a1.py" (Some "b.py") "b" {["X"]} false;
                mkImportEdge "a2.py" (Some "b.py") "b" {["X"]} false;
                mkImportEdge "b.py" (Some "c.py") "c" {["X"]} false ] |}.

Definition fork_fs : gmap Path string :=
  {[ "a1.py" := "from b import X; print(X)";
     "a2.py" := "from b import X";
     "b.py" := "from c import X; __all__ = []";
     "c.py" := "X = 1" ]}.

Definition fork_table : gmap string (list ImportInfo) :=
  {[ "from b import X" := [imp_X "b"];
     "from c import X; __all__ = []" := [imp_X "c"] ]}.

(** [a.py] imports [X] and [Y] from [b.py] and uses both; [b.py] imports
    them from [c.py] and has an empty [__all__]. *)
Definition pair_graph : ImportGraph :=
  {| nodes := {[ "a.py" := mkModuleInfo [imp_X "b"; imp_Y "b"] ∅ false ∅;
                 "b.py" := mkModuleInfo [imp_X "c"; imp_Y "c"] ∅ true ∅;
                 "c.py" := mkModuleInfo [] {["X"; "Y"]} false ∅ ]};
     edges := [ mkImportEdge "a.py" (Some "b.py") "b" {["X"; "Y"]} false;
                mkImportEdge "b.py" (Some "c.py") "c" {["X"; "Y"]} false ] |}.

Definition pair_fs : gmap Path string :=
  {[ "a.py" := "from b import X, Y; print(X, Y)";
     "b.py" := "from c import X, Y; __all__ = []";
     "c.py" := "X = 1; Y = 2" ]}.

Definition pair_table : gmap string (list ImportInfo) :=
  {[ "from c import X, Y; __all__ = []" := [imp_X "c"; imp_Y "c"] ]}.

(** The chain of scenario S5: [a.py] imports [X] from [b.py] and does not
    use it, [b.py] imports it from [c.py]; here [b.py] cannot be read. *)
Definition chain_graph : ImportGraph :=
  {| nodes := {[ "a.py" := mkModuleInfo [imp_X "b"] ∅ false ∅;
                 "b.py" := mkModuleInfo [imp_X "c"] ∅ false ∅;
                 "c.py" := mkModuleInfo [] {["X"]} false ∅ ]};
     edges := [ mkImportEdge "a.py" (Some "b.py") "b" {["X"]} false;
                mkImportEdge "b.py" (Some "c.py") "c" {["X"]} false ] |}.

Definition chain_fs : gmap Path string :=
  {[ "a.py" := "from b import X"; "b.py" := "from c import X"; "c.py" := "X = 1" ]}.

Definition chain_fs_unreadable : gmap Path string :=
  {[ "a.py" := "from b import X"; "c.py" := "X = 1" ]}.

Definition chain_table : gmap string (list ImportInfo) :=
  {[ "from b import X" := [imp_X "b"]; "from c import X" := [imp_X "c"] ]}.

(** Scenario S6: [a.py] imports [X] from [b.py] and uses it; [b.py] imports
    [X] from [c.py] and has an empty [__all__]. *)
Definition listed_graph : ImportGraph :=
  {| nodes := {[ "a.py" := mkModuleInfo [imp_X "b"] ∅ false ∅;
                 "b.py" := mkModuleInfo [imp_X "c"] ∅ true ∅;
                 "c.py" := mkModuleInfo [] {["X"]} false ∅ ]};
     edges := [ mkImportEdge "a.py" (Some "b.py") "b" {["X"]} false;
                mkImportEdge "b.py" (Some "c.py") "c" {["X"]} false ] |}.

Definition listed_fs : gmap Path string :=
  {[ "a.py" := "from b import X; print(X)";
     "b.py" := "from c import X; __all__ = []";
     "c.py" := "X = 1" ]}.

Definition listed_table : gmap string (list ImportInfo) :=
  {[ "from c import X; __all__ = []" := [imp_X "c"] ]}.

(** [a.py] and [b.py] import [X] from each other and neither uses it. *)
Definition cycle_graph : ImportGraph :=
  {| nodes := {[ "a.py" := mkModuleInfo [imp_X "b"] ∅ false ∅;
                 "b.py" := mkModuleInfo [imp_X "a"] ∅ false ∅ ]};
     edges := [ mkImportEdge "a.py" (Some "b.py") "b" {["X"]} false;
                mkImportEdge "b.py" (Some "a.py") "a" {["X"]} false ] |}.

Definition cycle_fs : gmap Path string :=
  {[ "a.py" := "from b import X"; "b.py" := "from a import X" ]}.

Definition cycle_table : gmap string (list ImportInfo) :=
  {[ "from b import X" := [imp_X "b"]; "from a import X" := [imp_X "a"] ]}.

(** [a.py] imports [os] and does not use it; the only edge is external. *)
Definition external_graph : ImportGraph :=
  {| nodes := {[ "a.py" := mkModuleInfo [mkImportInfo "os" "os" 1] ∅ false ∅ ]};
     edges := [ mkImportEdge "a.py" None "os" ∅ true ] |}.

Definition external_fs : gmap Path string := {[ "a.py" := "import os" ]}.

Definition external_table : gmap string (list ImportInfo) :=
  {[ "import os" := [mkImportInfo "os" "os" 1] ]}.

(** Removal maps of the chain: [X] removed in [a.py], and in both files. *)
Definition chain_removed_a : gmap Path (gset string) := {[ "a.py" := {["X"]} ]}.

Definition chain_removed_ab : gmap Path (gset string) :=
  {[ "a.py" := {["X"]}; "b.py" := {["X"]} ]}.

(** The single-file table of the chain. *)
Definition chain_unused : gmap Path (list ImportInfo) :=
  {[ "a.py" := [imp_X "b"]; "b.py" := [imp_X "c"] ]}.

Close Scope string_scope.

(** ** Ordered dicts *)

Lemma od_get_add d k m k' n :
  n ∈ od_get (od_add d k m) k' ↔ n ∈ od_get d k' ∨ (k = k' ∧ n = m).
Proof.
  induction d as [|[k0 s] d IH]; simpl.
  - destruct (decide (k = k')); set_solver.
  - destruct (decide (k0 = k)) as [->|Hk]; simpl.
    + destruct (decide (k = k')); set_solver.
    + destruct (decide (k0 = k')) as [->|Hk']; [|exact IH].
      split; [auto|]. intros [?|[? _]]; [done|congruence].
Qed.

Lemma elem_of_set_iter (o : IterOrder) (s : gset string) n :
  n ∈ set_iter o s ↔ n ∈ s.
Proof. rewrite (set_iter_perm o s). apply elem_of_elements. Qed.

(** ** Re-exports *)

Section Reexports.

Variable o : IterOrder.
Variable graph : ImportGraph.

Lemma reexport_names_spec imported_file module_info d l f n :
  n ∈ od_get (foldl (reexport_name imported_file module_info) d l) f ↔
  n ∈ od_get d f ∨
  (imported_file = f ∧ n ∈ l ∧
   (∃ imp, imp ∈ imports module_info ∧ name imp = n) ∧
   n ∉ defined_names module_info).
Proof.
  revert d. induction l as [|x l IH]; intros d; simpl.
  - set_solver.
  - rewrite IH. unfold reexport_name.
    destruct (decide _) as [[Hin Hdef]|Hno].
    + rewrite od_get_add. apply elem_of_list_to_set, list_elem_of_fmap in Hin.
      destruct Hin as (imp & -> & Himp). set_solver.
    + split; [set_solver|]. intros [?|(-> & Hx & (imp & Himp & <-) & Hdef)]; [by left|].
      apply elem_of_cons in Hx as [Hx|Hx]; [|right; eauto 10].
      exfalso. apply Hno. split; [|by rewrite <- Hx].
      apply elem_of_list_to_set, list_elem_of_fmap. exists imp. by rewrite Hx.
Qed.

Lemma reexport_edge_spec removed d edge f n :
  n ∈ od_get (reexport_edge o graph removed d edge) f ↔
  n ∈ od_get d f ∨ reexports_by graph removed f n edge.
Proof.
  unfold reexport_edge, reexports_by.
  destruct (is_external edge); [naive_solver|].
  destruct (imported edge) as [imported_file|]; [|naive_solver].
  destruct (decide _) as [Hempty|Hne].
  { split; [auto|]. intros [?|(_ & _ & ? & ? & _)]; [done|]. set_solver. }
  destruct (nodes graph !! imported_file) as [module_info|] eqn:Hnode.
  - rewrite reexport_names_spec, elem_of_set_iter, elem_of_difference.
    split.
    + intros [?|(-> & [? ?] & ? & ?)]; [by left|]. right. eauto 10.
    + intros [?|(_ & [= ->] & ? & ? & mi & Hmi & ? & ?)]; [by left|].
      right. rewrite Hnode in Hmi. injection Hmi as <-. eauto.
  - split; [auto|]. intros [?|(_ & [= ->] & _ & _ & mi & Hmi & _)]; [done|].
    congruence.
Qed.

Lemma reexport_edges_spec removed es d f n :
  n ∈ od_get (foldl (reexport_edge o graph removed) d es) f ↔
  n ∈ od_get d f ∨ ∃ edge, edge ∈ es ∧ reexports_by graph removed f n edge.
Proof.
  revert d. induction es as [|e es IH]; intros d; simpl.
  - set_solver.
  - rewrite IH, reexport_edge_spec. set_solver.
Qed.

Lemma elem_of_reexported removed_imports f n :
  n ∈ od_get (_find_reexported_imports o graph removed_imports) f ↔
  ∃ edge, edge ∈ edges graph ∧ reexports_by graph (default ∅ removed_imports) f n edge.
Proof.
  unfold _find_reexported_imports. rewrite reexport_edges_spec. set_solver.
Qed.

(** C2. For any removal map (and for none), the names that
    [_find_reexported_imports] returns for a file [f] are exactly the names
    [n] for which some edge that is not external and whose imported file is
    [f], a node of the graph, carries [n], with [n] not removed from the
    importer, [n] the name of an import of [f] and [n] not among the names
    defined in [f]; a name that [f] both defines and imports is never
    re-exported. *)
Theorem find_reexported_imports_exact removed_imports f n :
  (n ∈ od_get (_find_reexported_imports o graph removed_imports) f ↔
   ∃ edge module_info,
     edge ∈ edges graph ∧ is_external edge = false ∧
     imported edge = Some f ∧ nodes graph !! f = Some module_info ∧
     n ∈ names edge ∧
     (n ∉ removed_of (default ∅ removed_imports) (importer edge)) ∧
     (∃ imp, imp ∈ imports module_info ∧ name imp = n) ∧
     n ∉ defined_names module_info) ∧
  (∀ module_info, nodes graph !! f = Some module_info →
     n ∈ defined_names module_info →
     n ∉ od_get (_find_reexported_imports o graph removed_imports) f).
Proof.
  split.
  - rewrite elem_of_reexported. unfold reexports_by. naive_solver.
  - intros module_info Hnode Hdef Hin.
    apply elem_of_reexported in Hin as (edge & _ & _ & _ & _ & _ & mi & Hmi & _ & Hno).
    congruence.
Qed.

End Reexports.

(** ** One turn of the cascade *)

Lemma removed_of_insert (m : gmap Path (gset string)) f s f' :
  removed_of (<[f := s]> m) f' = if decide (f = f') then s else removed_of m f'.
Proof.
  unfold removed_of. destruct (decide (f = f')) as [->|Hne].
  - by rewrite lookup_insert_eq.
  - by rewrite lookup_insert_ne.
Qed.

Lemma mark_import_removed rs f st b f' n :
  n ∈ removed_of (mark_import rs f st b).1 f' ↔
  n ∈ removed_of st.1 f' ∨ (f' = f ∧ name b = n ∧ n ∉ rs).
Proof.
  destruct st as [m c]. unfold mark_import.
  destruct (decide (name b ∈ rs)) as [Hrs|Hrs]; simpl.
  { split; [auto|]. intros [?|(_ & <- & ?)]; done. }
  destruct (decide (name b ∈ removed_of m f)) as [Hin|Hin]; simpl.
  { split; [auto|]. intros [?|(-> & <- & ?)]; done. }
  rewrite removed_of_insert.
  destruct (decide (f = f')) as [<-|Hne]; [set_solver|].
  split; [auto|]. intros [?|(-> & _)]; done.
Qed.

Lemma mark_import_changed rs f st b :
  (mark_import rs f st b).2 = true ↔
  st.2 = true ∨ ((name b ∉ rs) ∧ name b ∉ removed_of st.1 f).
Proof.
  destruct st as [m c]. unfold mark_import.
  destruct (decide (name b ∈ rs)); simpl; [naive_solver|].
  destruct (decide (name b ∈ removed_of m f)); simpl; naive_solver.
Qed.

Lemma mark_import_unchanged rs f st b :
  (mark_import rs f st b).2 = false → mark_import rs f st b = st.
Proof.
  destruct st as [m c]. unfold mark_import.
  destruct (decide (name b ∈ rs)); [done|].
  destruct (decide (name b ∈ removed_of m f)); done.
Qed.

Lemma cascade_files_flat reexported items st :
  foldl (cascade_file reexported) st items
  = foldl (mark_pair reexported) st (flat_items items).
Proof.
  revert st. induction items as [|[f unused] items IH]; intros st; [done|].
  unfold flat_items in *. simpl. rewrite foldl_app, <- IH. f_equal.
  by rewrite foldl_fmap.
Qed.

Lemma elem_of_flat_items items f b :
  (f, b) ∈ flat_items items ↔ ∃ unused, (f, unused) ∈ items ∧ b ∈ unused.
Proof.
  unfold flat_items. rewrite list_elem_of_bind. split.
  - intros ([f' unused] & Hin & Hitem). simpl in Hin.
    apply list_elem_of_fmap in Hin as (b' & [= -> ->] & Hb). eauto.
  - intros (unused & Hitem & Hb). exists (f, unused). split; [|done].
    simpl. apply list_elem_of_fmap. eauto.
Qed.

Lemma mark_pairs_removed reexported ps st f n :
  n ∈ removed_of (foldl (mark_pair reexported) st ps).1 f ↔
  n ∈ removed_of st.1 f ∨
  ((n ∉ od_get reexported f) ∧ ∃ b, (f, b) ∈ ps ∧ name b = n).
Proof.
  revert st. induction ps as [|[f0 b0] ps IH]; intros st; simpl.
  - split; [auto|]. intros [?|(_ & b & Hb & _)]; [done|]. by apply elem_of_nil in Hb.
  - rewrite IH. unfold mark_pair at 1. simpl. rewrite mark_import_removed.
    split.
    + intros [[?|(-> & <- & ?)]|(? & b & ? & ?)]; [by left|right..].
      * split; [done|]. exists b0. split; [left|done].
      * split; [done|]. exists b. split; [by right|done].
    + intros [?|(? & b & Hb & ?)]; [by left; left|].
      apply elem_of_cons in Hb as [[= -> ->]|Hb]; [by left; right|].
      right. eauto.
Qed.

Lemma mark_pairs_mono reexported ps st f :
  removed_of st.1 f ⊆ removed_of (foldl (mark_pair reexported) st ps).1 f.
Proof. intros n Hn. apply mark_pairs_removed. by left. Qed.

Lemma mark_pairs_changed reexported ps st :
  (foldl (mark_pair reexported) st ps).2 = true ↔
  st.2 = true ∨
  ∃ f b, (f, b) ∈ ps ∧ (name b ∉ od_get reexported f) ∧ name b ∉ removed_of st.1 f.
Proof.
  revert st. induction ps as [|[f0 b0] ps IH]; intros st; simpl.
  - split; [auto|]. intros [?|(f & b & Hb & _)]; [done|]. by apply elem_of_nil in Hb.
  - rewrite IH. unfold mark_pair at 1 2. simpl. rewrite mark_import_changed.
    split.
    + intros [[?|[? ?]]|(f & b & Hb & Hre & Hrm)]; [by left|right..].
      * exists f0, b0. split; [left|done].
      * exists f, b. split; [by right|]. split; [done|].
        intros Hin. apply Hrm, mark_import_removed. by left.
    + intros [?|(f & b & Hb & Hre & Hrm)]; [by left; left|].
      apply elem_of_cons in Hb as [[= -> ->]|Hb]; [by left; right|].
      destruct (decide (name b ∈ removed_of
        (mark_import (od_get reexported f0) f0 st b0).1 f)) as [Hin|Hin].
      * apply mark_import_removed in Hin as [?|(-> & Heq & _)]; [done|].
        left; right. by rewrite Heq.
      * right. eauto.
Qed.

Lemma mark_pairs_unchanged reexported ps st :
  (foldl (mark_pair reexported) st ps).2 = false →
  foldl (mark_pair reexported) st ps = st.
Proof.
  revert st. induction ps as [|p ps IH]; intros st Hflag; simpl in *; [done|].
  rewrite (IH _ Hflag). apply mark_import_unchanged.
  destruct (mark_import _ _ st p.2).2 eqn:Hstep; [|done].
  assert ((foldl (mark_pair reexported) (mark_pair reexported st p) ps).2 = true)
    as Htrue by (apply mark_pairs_changed; by left).
  congruence.
Qed.

(** ** The cascade *)

Section Cascade.

Variable o : IterOrder.
Variable graph : ImportGraph.
Variable sfu : gmap Path (list ImportInfo).

Lemma elem_of_items f unused :
  (f, unused) ∈ items_iter o sfu ↔ sfu !! f = Some unused.
Proof. rewrite (items_iter_perm o). apply elem_of_map_to_list. Qed.

Lemma elem_of_flat_unused f b :
  (f, b) ∈ flat_items (items_iter o sfu) ↔ b ∈ flagged sfu f.
Proof.
  rewrite elem_of_flat_items. unfold flagged. split.
  - intros (unused & Hitem & Hb). apply elem_of_items in Hitem. by rewrite Hitem.
  - destruct (sfu !! f) as [unused|] eqn:Hf; simpl.
    + intros Hb. exists unused. by rewrite elem_of_items.
    + intros Hb. by apply elem_of_nil in Hb.
Qed.

Lemma turn_removed all_removed f n :
  n ∈ removed_of (turn o graph sfu all_removed) f ↔
  n ∈ removed_of all_removed f ∨
  ((n ∉ reexported_from o graph all_removed f) ∧ ∃ b, b ∈ flagged sfu f ∧ name b = n).
Proof.
  unfold turn, cascade_pass. rewrite cascade_files_flat, mark_pairs_removed.
  simpl. unfold reexported_from. by setoid_rewrite elem_of_flat_unused.
Qed.

Lemma turn_changed_true all_removed :
  turn_changed o graph sfu all_removed = true ↔
  ∃ f b, b ∈ flagged sfu f ∧ (name b ∉ reexported_from o graph all_removed f) ∧
         (name b ∉ removed_of all_removed f).
Proof.
  unfold turn_changed, cascade_pass. rewrite cascade_files_flat, mark_pairs_changed.
  simpl. unfold reexported_from. setoid_rewrite elem_of_flat_unused.
  split; [|auto]. by intros [?|?].
Qed.

Lemma turn_unchanged all_removed :
  turn_changed o graph sfu all_removed = false → turn o graph sfu all_removed = all_removed.
Proof.
  unfold turn_changed, turn, cascade_pass. rewrite cascade_files_flat.
  intros Hflag. by rewrite (mark_pairs_unchanged _ _ _ Hflag).
Qed.

Lemma turn_mono all_removed f :
  removed_of all_removed f ⊆ removed_of (turn o graph sfu all_removed) f.
Proof. intros n Hn. apply turn_removed. by left. Qed.

(** The re-exports shrink when the removal map grows. *)
Lemma reexported_from_antitone m1 m2 f :
  (∀ f', removed_of m1 f' ⊆ removed_of m2 f') →
  reexported_from o graph m2 f ⊆ reexported_from o graph m1 f.
Proof.
  intros Hsub n. unfold reexported_from. rewrite !elem_of_reexported.
  intros (edge & Hedge & Hext & Himp & Hn & Hrm & Hmi).
  exists edge. split; [done|]. repeat split; try done.
  intros Hin. apply Hrm. simpl in *. by apply Hsub.
Qed.

Lemma within_flagged_empty : within_flagged sfu ∅.
Proof. intros f n. unfold removed_of. rewrite lookup_empty. set_solver. Qed.

Lemma not_reexported_empty : not_reexported o graph ∅.
Proof. intros f n. unfold removed_of. rewrite lookup_empty. set_solver. Qed.

Lemma within_flagged_turn m : within_flagged sfu m → within_flagged sfu (turn o graph sfu m).
Proof.
  intros Hm f n Hn. apply turn_removed in Hn as [Hn|[_ Hb]]; [by apply Hm|done].
Qed.

Lemma not_reexported_turn m : not_reexported o graph m → not_reexported o graph (turn o graph sfu m).
Proof.
  intros Hm f n Hn Hre.
  apply (reexported_from_antitone m) in Hre; [|apply turn_mono].
  apply turn_removed in Hn as [Hn|[Hn _]]; [by apply (Hm f n)|done].
Qed.

End Cascade.

(** ** The size of the removal map *)

Lemma removed_of_empty f : removed_of ∅ f = ∅.
Proof. unfold removed_of. by rewrite lookup_empty. Qed.

Lemma removed_of_None (m : gmap Path (gset string)) f :
  m !! f = None → removed_of m f = ∅.
Proof. unfold removed_of. by intros ->. Qed.

Lemma elem_of_removed_pairs m f n :
  (f, n) ∈ removed_pairs m ↔ n ∈ removed_of m f.
Proof.
  revert f n. unfold removed_pairs.
  apply (map_fold_weak_ind (λ r m, ∀ f n, (f, n) ∈ r ↔ n ∈ removed_of m f)).
  - intros f n. rewrite removed_of_empty. set_solver.
  - intros i x m' r Hi IH f n. rewrite elem_of_union, IH, elem_of_map, removed_of_insert.
    destruct (decide (i = f)) as [->|Hne].
    + rewrite (removed_of_None _ _ Hi). split.
      * intros [(y & [= ->] & ?)|?]; [done|set_solver].
      * intros Hn. left. eauto.
    + split; [|auto]. intros [(y & [= -> _] & _)|?]; done.
Qed.

Lemma elem_of_unused_pairs sfu f n :
  (f, n) ∈ unused_pairs sfu ↔ ∃ b, b ∈ flagged sfu f ∧ name b = n.
Proof.
  revert f n. unfold unused_pairs, flagged.
  apply (map_fold_weak_ind (λ r m, ∀ f n,
    (f, n) ∈ r ↔ ∃ b, b ∈ default [] (m !! f) ∧ name b = n)).
  - intros f n. rewrite lookup_empty. simpl. split; [set_solver|].
    intros (b & Hb & _). by apply elem_of_nil in Hb.
  - intros i x m' r Hi IH f n.
    rewrite elem_of_union, IH, elem_of_list_to_set, list_elem_of_fmap.
    destruct (decide (i = f)) as [->|Hne].
    + rewrite lookup_insert_eq, Hi. simpl. split.
      * intros [(b & [= ->] & ?)|(b & Hb & _)]; [eauto|]. by apply elem_of_nil in Hb.
      * intros (b & Hb & <-). left. eauto.
    + rewrite lookup_insert_ne by done. split; [|auto].
      intros [(b & [= -> _] & _)|?]; done.
Qed.

Lemma size_set_map_pair (f : Path) (s : gset string) :
  size (set_map (D:=gset (Path * string)) (pair f) s) = size s.
Proof.
  unfold set_map. rewrite size_list_to_set.
  - by rewrite length_fmap.
  - apply (NoDup_fmap_2 _), NoDup_elements.
Qed.

Lemma total_removed_insert m f s :
  m !! f = None → total_removed (<[f := s]> m) = size s + total_removed m.
Proof.
  intros Hf. unfold total_removed. rewrite map_fold_insert_L; [done| |done].
  intros. lia.
Qed.

Lemma removed_pairs_insert m f s :
  m !! f = None →
  removed_pairs (<[f := s]> m) = set_map (pair f) s ∪ removed_pairs m.
Proof.
  intros Hf. unfold removed_pairs. rewrite map_fold_insert_L; [done| |done].
  intros. set_solver.
Qed.

Lemma total_removed_pairs m : total_removed m = size (removed_pairs m).
Proof.
  induction m as [|f s m Hf IH] using map_ind; [done|].
  rewrite total_removed_insert, removed_pairs_insert, size_union by done || (
    intros [f' n] Hl Hr; apply elem_of_map in Hl as (y & [= -> ->] & _);
    apply elem_of_removed_pairs in Hr; rewrite (removed_of_None _ _ Hf) in Hr;
    set_solver).
  by rewrite size_set_map_pair, IH.
Qed.

Lemma size_list_to_set_le (l : list (Path * string)) :
  (size (list_to_set (C:=gset (Path * string)) l) ≤ length l)%nat.
Proof.
  induction l as [|x l IH]; [done|].
  rewrite list_to_set_cons, size_union_alt, size_singleton. simpl.
  assert (size (list_to_set (C:=gset (Path * string)) l ∖ {[x]})
          ≤ size (list_to_set (C:=gset (Path * string)) l))%nat
    by (apply subseteq_size; set_solver).
  lia.
Qed.

Lemma unused_pairs_size sfu : (size (unused_pairs sfu) ≤ total_unused sfu)%nat.
Proof.
  unfold unused_pairs, total_unused.
  induction sfu as [|f unused m Hf IH] using map_ind; [done|].
  rewrite !map_fold_insert_L; [|intros; lia|done|intros; set_solver|done].
  rewrite size_union_alt.
  pose proof (size_list_to_set_le ((λ b, (f, name b)) <$> unused)) as Hle.
  rewrite length_fmap in Hle.
  match goal with |- (_ + size (?X ∖ ?Y) ≤ _)%nat =>
    assert (size (X ∖ Y) ≤ size X)%nat by (apply subseteq_size; set_solver) end.
  lia.
Qed.

(** ** Termination and the stable removal map *)

Section Fixpoint_of_cascade.

Variable o : IterOrder.
Variable graph : ImportGraph.
Variable sfu : gmap Path (list ImportInfo).

Lemma within_flagged_bound m :
  within_flagged sfu m → (total_removed m ≤ total_unused sfu)%nat.
Proof.
  intros Hm. rewrite total_removed_pairs.
  etransitivity; [|apply unused_pairs_size]. apply subseteq_size.
  intros [f n] Hin. apply elem_of_unused_pairs, Hm.
  by apply elem_of_removed_pairs.
Qed.

Lemma turn_size m :
  if turn_changed o graph sfu m
  then (total_removed m < total_removed (turn o graph sfu m))%nat
  else turn o graph sfu m = m.
Proof.
  destruct (turn_changed o graph sfu m) eqn:Hch; [|by apply turn_unchanged].
  apply turn_changed_true in Hch as (f & b & Hb & Hre & Hrm).
  rewrite !total_removed_pairs. apply subset_size. split.
  - intros [f' n]. rewrite !elem_of_removed_pairs. apply turn_mono.
  - intros Hsub. apply Hrm. apply elem_of_removed_pairs, Hsub, elem_of_removed_pairs.
    apply turn_removed. right. eauto.
Qed.

Lemma cascade_loop_S fuel m :
  cascade_loop o graph (S fuel) sfu m
  = if turn_changed o graph sfu m
    then cascade_loop o graph fuel sfu (turn o graph sfu m)
    else Some (turn o graph sfu m).
Proof.
  unfold turn_changed, turn. simpl.
  by destruct (cascade_pass o graph sfu m) as [m' c].
Qed.

Lemma within_flagged_after k : within_flagged sfu (removed_after o graph sfu k).
Proof.
  induction k as [|k IH]; simpl.
  - apply within_flagged_empty.
  - by apply within_flagged_turn.
Qed.

Lemma not_reexported_after k : not_reexported o graph (removed_after o graph sfu k).
Proof.
  induction k as [|k IH]; simpl.
  - apply not_reexported_empty.
  - by apply not_reexported_turn.
Qed.

(** With enough turns allowed, the loop started after [k] turns ends, on a
    removal map that a further turn leaves as it is. *)
Lemma cascade_loop_ends fuel k :
  (total_unused sfu < total_removed (removed_after o graph sfu k) + fuel)%nat →
  ∃ k', cascade_loop o graph fuel sfu (removed_after o graph sfu k)
        = Some (removed_after o graph sfu k') ∧
        turn_changed o graph sfu (removed_after o graph sfu k') = false.
Proof.
  revert k. induction fuel as [|fuel IH]; intros k Hfuel.
  { pose proof (within_flagged_bound _ (within_flagged_after k)). lia. }
  rewrite cascade_loop_S.
  pose proof (turn_size (removed_after o graph sfu k)) as Hsize.
  destruct (turn_changed o graph sfu (removed_after o graph sfu k)) eqn:Hch.
  - apply (IH (S k)). simpl. lia.
  - exists k. by rewrite Hsize.
Qed.

Lemma cascade_stable :
  ∃ k, cascade o graph sfu = Some (removed_after o graph sfu k) ∧
       turn_changed o graph sfu (removed_after o graph sfu k) = false.
Proof. apply (cascade_loop_ends _ 0). simpl. lia. Qed.

End Fixpoint_of_cascade.

(** ** The unused imports of the result *)

Lemma filter_removed_empty (l : list ImportInfo) (s : gset string) :
  s = ∅ → filter (λ imp, name imp ∈ s) l = [].
Proof.
  intros ->. induction l as [|b l IH]; [done|].
  rewrite filter_cons. destruct (decide _) as [Hin|_]; [set_solver|done].
Qed.

Lemma build_unused_imports_lookup sfu m f :
  build_unused_imports sfu m !! f
  = match filter (λ imp, name imp ∈ removed_of m f) (flagged sfu f) with
    | [] => None
    | imp :: l => Some (imp :: l)
    end.
Proof.
  unfold build_unused_imports, removed_of, flagged. rewrite map_lookup_imap.
  destruct (m !! f) as [s|].
  - simpl. by destruct (filter _ _).
  - by rewrite (filter_removed_empty _ (default ∅ None)).
Qed.

Lemma build_unused_imports_default sfu m f :
  default [] (build_unused_imports sfu m !! f)
  = filter (λ imp, name imp ∈ removed_of m f) (flagged sfu f).
Proof. rewrite build_unused_imports_lookup. by destruct (filter _ _). Qed.

Section Results.

Variable read_text : Path → ReadError + string.
Variable find_unused_imports : string → list ImportInfo.
Variable find_cycles : ImportGraph → list (list Path).
Variable o : IterOrder.
Variable graph : ImportGraph.

(** What [analyze] returns, from the stable removal map. *)
Lemma analyze_stable :
  ∃ k, let all_removed :=
         removed_after o graph (_get_single_file_unused read_text find_unused_imports graph) k in
    cascade o graph (_get_single_file_unused read_text find_unused_imports graph)
      = Some all_removed ∧
    turn_changed o graph (_get_single_file_unused read_text find_unused_imports graph)
      all_removed = false ∧
    analyze read_text find_unused_imports find_cycles o graph
      = Some {| unused_imports :=
                  build_unused_imports
                    (_get_single_file_unused read_text find_unused_imports graph) all_removed;
                implicit_reexports :=
                  _find_implicit_reexports o graph
                    (_find_reexported_imports o graph (Some all_removed));
                external_usage := _aggregate_external_usage graph;
                circular_imports := find_cycles graph |}.
Proof.
  destruct (cascade_stable o graph
    (_get_single_file_unused read_text find_unused_imports graph)) as (k & Hk & Hch).
  exists k. simpl. split; [done|]. split; [done|].
  unfold analyze. by rewrite Hk.
Qed.

(** C1. [analyze] ends with a removal map that a further turn of the loop
    leaves as it is, and then: for every file the list it reports (none
    reported being the empty list) is the list of the single-file unused
    imports of the file whose name is in the removal set of the file; and a
    name flagged in a file is in the removal set of the file exactly when the
    file does not re-export it, the re-exports being those computed against
    this final removal map. *)
Theorem analyze_unused_imports_exact :
  ∃ all_removed r,
    cascade o graph (_get_single_file_unused read_text find_unused_imports graph)
      = Some all_removed ∧
    turn_changed o graph (_get_single_file_unused read_text find_unused_imports graph)
      all_removed = false ∧
    analyze read_text find_unused_imports find_cycles o graph = Some r ∧
    (∀ f, default [] (unused_imports r !! f)
          = filter (λ b, name b ∈ removed_of all_removed f)
              (flagged (_get_single_file_unused read_text find_unused_imports graph) f)) ∧
    (∀ f b,
       b ∈ flagged (_get_single_file_unused read_text find_unused_imports graph) f →
       name b ∈ removed_of all_removed f ↔
       name b ∉ reexported_from o graph all_removed f).
Proof.
  destruct analyze_stable as (k & Hk & Hch & Hr). simpl in *.
  eexists _, _. split; [exact Hk|]. split; [exact Hch|]. split; [exact Hr|].
  simpl. split; [intros f; apply build_unused_imports_default|].
  intros f b Hb. split.
  - apply not_reexported_after.
  - intros Hre. destruct (decide (name b ∈ removed_of (removed_after o graph
      (_get_single_file_unused read_text find_unused_imports graph) k) f))
      as [Hin|Hout]; [done|].
    assert (turn_changed o graph
      (_get_single_file_unused read_text find_unused_imports graph)
      (removed_after o graph
        (_get_single_file_unused read_text find_unused_imports graph) k) = true)
      as Htrue by (apply turn_changed_true; eauto).
    congruence.
Qed.

(** C5. The cascade is monotone: whatever the removal map at the start of
    a turn of the loop, the set of every file after the turn contains its
    set before the turn, and so the set of every file after [k + 1] turns
    contains its set after [k] turns: names are added and never taken out. *)
Theorem cascade_monotone sfu :
  (∀ all_removed f,
     removed_of all_removed f ⊆ removed_of (turn o graph sfu all_removed) f) ∧
  (∀ k f,
     removed_of (removed_after o graph sfu k) f
     ⊆ removed_of (removed_after o graph sfu (S k)) f).
Proof.
  split.
  - intros all_removed f n Hn. apply turn_removed. by left.
  - intros k f n Hn. simpl. apply turn_removed. by left.
Qed.

(** C6. The loop of [analyze] ends on every graph: a turn that sets
    [changed] makes the total size of the removal map strictly larger (and a
    turn that does not leaves the map as it is), after any number of turns the
    total size is at most the number of single-file unused imports of all
    files together, and [analyze] returns a result. *)
Theorem cascade_terminates :
  (∀ sfu all_removed,
     if turn_changed o graph sfu all_removed
     then (total_removed all_removed < total_removed (turn o graph sfu all_removed))%nat
     else turn o graph sfu all_removed = all_removed) ∧
  (∀ sfu k, (total_removed (removed_after o graph sfu k) ≤ total_unused sfu)%nat) ∧
  (∃ all_removed r,
     cascade o graph (_get_single_file_unused read_text find_unused_imports graph)
       = Some all_removed ∧
     analyze read_text find_unused_imports find_cycles o graph = Some r).
Proof.
  split; [intros; apply turn_size|].
  split; [intros; apply within_flagged_bound, within_flagged_after|].
  destruct analyze_stable as (k & Hk & _ & Hr). eauto.
Qed.

(** C10. No list stored in [unused_imports] is empty: a file none of whose
    flagged imports has its name in the removal set has no entry at all, and
    each list that is stored is a sublist of the single-file unused list of
    its file, in the same order. *)
Theorem unused_imports_nonempty_sublists :
  ∃ all_removed r,
    cascade o graph (_get_single_file_unused read_text find_unused_imports graph)
      = Some all_removed ∧
    analyze read_text find_unused_imports find_cycles o graph = Some r ∧
    ∀ f,
      (filter (λ b, name b ∈ removed_of all_removed f)
         (flagged (_get_single_file_unused read_text find_unused_imports graph) f) = [] →
       unused_imports r !! f = None) ∧
      (∀ l, unused_imports r !! f = Some l →
         l ≠ [] ∧
         l `sublist_of`
           flagged (_get_single_file_unused read_text find_unused_imports graph) f).
Proof.
  destruct analyze_stable as (k & Hk & _ & Hr). simpl in *.
  eexists _, _. split; [exact Hk|]. split; [exact Hr|]. simpl.
  intros f. rewrite build_unused_imports_lookup. split.
  - by intros ->.
  - intros l Hl.
    pose proof (sublist_filter (λ b, name b ∈ removed_of (removed_after o graph
      (_get_single_file_unused read_text find_unused_imports graph) k) f)
      (flagged (_get_single_file_unused read_text find_unused_imports graph) f)) as Hsub.
    destruct (filter _ _) as [|b l'] eqn:Hfilter; [done|].
    injection Hl as <-. by split.
Qed.

End Results.

(** ** External usage *)

Lemma usage_edges_elem es (usage : gmap string (gset Path)) m p :
  p ∈ default ∅ (foldl usage_edge usage es !! m) ↔
  p ∈ default ∅ (usage !! m) ∨
  ∃ edge, edge ∈ es ∧ is_external edge = true ∧ module_name edge = m ∧ importer edge = p.
Proof.
  revert usage. induction es as [|e es IH]; intros usage; simpl.
  - split; [auto|]. intros [?|(edge & Hin & _)]; [done|]. by apply elem_of_nil in Hin.
  - rewrite IH. unfold usage_edge at 1. destruct (is_external e) eqn:Hext.
    + destruct (decide (module_name e = m)) as [<-|Hne].
      * rewrite lookup_insert_eq. simpl. rewrite elem_of_union, elem_of_singleton.
        split.
        -- intros [[->|?]|(edge & ? & ?)]; [right|by left|right].
           ++ exists e. split; [left|done].
           ++ exists edge. split; [by right|done].
        -- intros [?|(edge & Hin & He)]; [by left; right|].
           apply elem_of_cons in Hin as [->|Hin]; [|right; eauto].
           left; left. by destruct He as (_ & _ & <-).
      * rewrite lookup_insert_ne by done. split.
        -- intros [?|(edge & ? & ?)]; [by left|right].
           exists edge. split; [by right|done].
        -- intros [?|(edge & Hin & He)]; [by left|].
           apply elem_of_cons in Hin as [->|Hin]; [|right; eauto].
           by destruct He as (_ & ? & _).
    + split.
      * intros [?|(edge & ? & ?)]; [by left|right].
        exists edge. split; [by right|done].
      * intros [?|(edge & Hin & He)]; [by left|].
        apply elem_of_cons in Hin as [->|Hin]; [|right; eauto].
        destruct He as (? & _). congruence.
Qed.

Lemma usage_edges_nonempty es (usage : gmap string (gset Path)) :
  (∀ m S, usage !! m = Some S → S ≠ ∅) →
  ∀ m S, foldl usage_edge usage es !! m = Some S → S ≠ ∅.
Proof.
  revert usage. induction es as [|e es IH]; intros usage Hne; simpl; [done|].
  apply IH. intros m S. unfold usage_edge. destruct (is_external e); [|apply Hne].
  destruct (decide (module_name e = m)) as [<-|Hm].
  - rewrite lookup_insert_eq. intros [= <-]. set_solver.
  - rewrite lookup_insert_ne by done. apply Hne.
Qed.

Lemma aggregate_external_usage_lookup (graph : ImportGraph) (m : string) (S : gset Path) :
  _aggregate_external_usage graph !! m = Some S ↔
  S ≠ ∅ ∧
  ∀ p, p ∈ S ↔
    ∃ edge, edge ∈ edges graph ∧ is_external edge = true ∧
            module_name edge = m ∧ importer edge = p.
Proof.
  unfold _aggregate_external_usage.
  pose proof (usage_edges_elem (edges graph) ∅ m) as Helem.
  pose proof (usage_edges_nonempty (edges graph) ∅) as Hne.
  split.
  - intros Hm. split.
    + apply (Hne ltac:(intros ??; by rewrite lookup_empty) m S Hm).
    + intros p. specialize (Helem p). rewrite Hm, lookup_empty in Helem.
      simpl in Helem. rewrite Helem. set_solver.
  - intros [HS Hall].
    apply set_choose_L in HS as [p Hp].
    pose proof (proj2 (Helem p) (or_intror (proj1 (Hall p) Hp))) as Hin.
    destruct (foldl usage_edge ∅ (edges graph) !! m) as [S'|] eqn:Hm;
      [|by apply not_elem_of_empty in Hin].
    f_equal. apply set_eq. intros q. rewrite Hall.
    specialize (Helem q). rewrite lookup_empty in Helem. simpl in Helem.
    rewrite Helem. set_solver.
Qed.

(** C8. In the result that [analyze] returns, the field [external_usage]
    maps a module name [m] to a set [S] exactly when [S] is not empty and is
    the set of the importers of the edges of the graph marked external whose
    module name is [m]; an edge that is not marked external leaves the table
    as it is, so the edges resolved inside the project contribute nothing. *)
Theorem external_usage_exact
    (read_text : Path → ReadError + string)
    (find_unused_imports : string → list ImportInfo)
    (find_cycles : ImportGraph → list (list Path))
    (o : IterOrder) (graph : ImportGraph) :
  ∃ r,
    analyze read_text find_unused_imports find_cycles o graph = Some r ∧
    (∀ m S,
       external_usage r !! m = Some S ↔
       S ≠ ∅ ∧
       ∀ p, p ∈ S ↔
         ∃ edge, edge ∈ edges graph ∧ is_external edge = true ∧
                 module_name edge = m ∧ importer edge = p) ∧
    (∀ usage edge, is_external edge = false → usage_edge usage edge = usage).
Proof.
  destruct (analyze_stable read_text find_unused_imports find_cycles o graph)
    as (k & _ & _ & Hr). simpl in Hr.
  eexists. split; [exact Hr|]. simpl. split.
  - intros m S. apply aggregate_external_usage_lookup.
  - intros usage edge. unfold usage_edge. by intros ->.
Qed.

(** ** Files that cannot be read *)

Lemma get_single_file_unused_lookup read_text find_unused_imports graph f :
  _get_single_file_unused read_text find_unused_imports graph !! f
  = match nodes graph !! f with
    | None => None
    | Some _ =>
        match read_text f with
        | inl _ => None
        | inr source =>
            match find_unused_imports source with
            | [] => None
            | imp :: unused => Some (imp :: unused)
            end
        end
    end.
Proof.
  unfold _get_single_file_unused. rewrite map_lookup_imap.
  destruct (nodes graph !! f); simpl; [|done].
  destruct (read_text f); [done|]. by destruct (find_unused_imports _).
Qed.

(** C7. When the source of a file cannot be read, [analyze] still returns
    a complete result.  The file has no entry in the single-file table and
    none in [unused_imports], as a file that is no node has none.  Every
    node whose source can be read is given the unused imports that the
    single-file analyzer finds in that source, and the result covers it: its
    reported list is the list of those imports whose name is in the final
    removal set of the node, a name being there exactly when the node does
    not re-export it.  The three other fields of the result are computed as
    for any graph. *)
Theorem read_failure_skips_file
    (read_text : Path → ReadError + string)
    (find_unused_imports : string → list ImportInfo)
    (find_cycles : ImportGraph → list (list Path))
    (o : IterOrder) (graph : ImportGraph) (f : Path) (err : ReadError) :
  read_text f = inl err →
  _get_single_file_unused read_text find_unused_imports graph !! f = None ∧
  (∀ f' module_info source,
     nodes graph !! f' = Some module_info → read_text f' = inr source →
     flagged (_get_single_file_unused read_text find_unused_imports graph) f'
     = find_unused_imports source) ∧
  ∃ all_removed r,
    cascade o graph (_get_single_file_unused read_text find_unused_imports graph)
      = Some all_removed ∧
    analyze read_text find_unused_imports find_cycles o graph = Some r ∧
    unused_imports r !! f = None ∧
    (∀ f', nodes graph !! f' = None → unused_imports r !! f' = None) ∧
    (∀ f' module_info source,
       nodes graph !! f' = Some module_info → read_text f' = inr source →
       default [] (unused_imports r !! f')
       = filter (λ b, name b ∈ removed_of all_removed f') (find_unused_imports source) ∧
       ∀ b, b ∈ find_unused_imports source →
         name b ∈ removed_of all_removed f' ↔
         name b ∉ reexported_from o graph all_removed f') ∧
    implicit_reexports r
      = _find_implicit_reexports o graph
          (_find_reexported_imports o graph (Some all_removed)) ∧
    external_usage r = _aggregate_external_usage graph ∧
    circular_imports r = find_cycles graph.
Proof.
  intros Hread.
  assert (_get_single_file_unused read_text find_unused_imports graph !! f = None)
    as Hskip.
  { rewrite get_single_file_unused_lookup, Hread. by destruct (nodes graph !! f). }
  assert (∀ f' module_info source,
     nodes graph !! f' = Some module_info → read_text f' = inr source →
     flagged (_get_single_file_unused read_text find_unused_imports graph) f'
     = find_unused_imports source) as Hflagged.
  { intros f' module_info source Hnode Hsource. unfold flagged.
    rewrite get_single_file_unused_lookup, Hnode, Hsource.
    by destruct (find_unused_imports source). }
  split; [done|]. split; [exact Hflagged|].
  destruct (analyze_stable read_text find_unused_imports find_cycles o graph)
    as (k & Hk & Hst & Hr). simpl in *.
  eexists _, _. split; [exact Hk|]. split; [exact Hr|]. simpl.
  split.
  { rewrite build_unused_imports_lookup. unfold flagged. by rewrite Hskip. }
  split.
  { intros f' Hnode. rewrite build_unused_imports_lookup. unfold flagged.
    by rewrite get_single_file_unused_lookup, Hnode. }
  split; [|done].
  intros f' module_info source Hnode Hsource.
  rewrite build_unused_imports_default, (Hflagged f' module_info source Hnode Hsource).
  split; [done|]. intros b Hb. split.
  - apply not_reexported_after.
  - intros Hre.
    destruct (decide (name b ∈ removed_of (removed_after o graph
      (_get_single_file_unused read_text find_unused_imports graph) k) f'))
      as [Hin|Hout]; [done|].
    assert (turn_changed o graph
      (_get_single_file_unused read_text find_unused_imports graph)
      (removed_after o graph
        (_get_single_file_unused read_text find_unused_imports graph) k) = true)
      as Htrue.
    { apply turn_changed_true. exists f', b.
      by rewrite (Hflagged f' module_info source Hnode Hsource). }
    congruence.
Qed.

(** ** Implicit re-exports *)

Lemma od_add_keys d k n :
  (od_add d k n).*1 = if decide (k ∈ d.*1) then d.*1 else d.*1 ++ [k].
Proof.
  induction d as [|[k' s] d IH]; [done|].
  simpl od_add. destruct (decide (k' = k)) as [->|Hne].
  - clear IH. rewrite !fmap_cons. simpl fst.
    destruct (decide (k ∈ k :: d.*1)) as [_|Hout]; [done|].
    exfalso. apply Hout. left.
  - rewrite !fmap_cons, IH. simpl fst.
    destruct (decide (k ∈ d.*1)) as [Hin|Hout];
      destruct (decide (k ∈ k' :: d.*1)) as [Hin'|Hout']; try done.
    + exfalso. apply Hout'. by right.
    + exfalso. apply elem_of_cons in Hin' as [->|?]; done.
Qed.

Lemma od_add_NoDup d k n : NoDup d.*1 → NoDup (od_add d k n).*1.
Proof.
  intros Hd. rewrite od_add_keys. case_decide as Hout; [done|].
  apply NoDup_app. split; [done|]. split; [|apply NoDup_singleton].
  intros x Hx Hx'. apply list_elem_of_singleton in Hx' as ->. done.
Qed.

Lemma od_get_item d k s : NoDup d.*1 → (k, s) ∈ d → od_get d k = s.
Proof.
  induction d as [|[k' s'] d IH]; simpl; intros Hd Hin.
  - by apply elem_of_nil in Hin.
  - apply NoDup_cons in Hd as [Hk' Hd].
    destruct (decide (k' = k)) as [->|Hne].
    + apply elem_of_cons in Hin as [[= <-]|Hin]; [done|].
      exfalso. apply Hk'. apply list_elem_of_fmap. by exists (k, s).
    + apply elem_of_cons in Hin as [[= -> ->]|Hin]; [done|]. by apply IH.
Qed.

Lemma od_get_elem d k n : n ∈ od_get d k → ∃ s, (k, s) ∈ d ∧ n ∈ s.
Proof.
  induction d as [|[k' s'] d IH]; simpl; intros Hn; [set_solver|].
  destruct (decide (k' = k)) as [->|Hne].
  - exists s'. split; [left|done].
  - destruct (IH Hn) as (s & Hin & Hs). exists s. split; [by right|done].
Qed.

Section Implicit.

Variable o : IterOrder.
Variable graph : ImportGraph.

Lemma reexport_names_NoDup imported_file module_info d l :
  NoDup d.*1 → NoDup (foldl (reexport_name imported_file module_info) d l).*1.
Proof.
  revert d. induction l as [|x l IH]; intros d Hd; simpl; [done|].
  apply IH. unfold reexport_name. destruct (decide _); [|done].
  by apply od_add_NoDup.
Qed.

Lemma reexport_edge_NoDup removed d edge :
  NoDup d.*1 → NoDup (reexport_edge o graph removed d edge).*1.
Proof.
  intros Hd. unfold reexport_edge.
  destruct (is_external edge); [done|].
  destruct (imported edge) as [imported_file|]; [|done].
  destruct (decide _); [done|].
  destruct (nodes graph !! imported_file); [|done].
  by apply reexport_names_NoDup.
Qed.

Lemma find_reexported_imports_NoDup removed_imports :
  NoDup (_find_reexported_imports o graph removed_imports).*1.
Proof.
  unfold _find_reexported_imports.
  assert (∀ es d, NoDup d.*1 →
    NoDup (foldl (reexport_edge o graph (default ∅ removed_imports)) d es).*1) as H.
  { induction es as [|e es IH]; intros d Hd; simpl; [done|].
    by apply IH, reexport_edge_NoDup. }
  apply H. constructor.
Qed.

Lemma elem_of_implicit_of_file item ir :
  ir ∈ implicit_of_file o graph item ↔
  ∃ module_info,
    nodes graph !! item.1 = Some module_info ∧
    import_name ir ∈ item.2 ∧ (import_name ir ∉ exports module_info) ∧
    ir = mkImplicitReexport item.1 (import_name ir)
           (find_used_by graph item.1 (import_name ir)).
Proof.
  destruct item as [file_path reexported_names]. unfold implicit_of_file. simpl.
  destruct (nodes graph !! file_path) as [module_info|].
  - rewrite list_elem_of_bind. setoid_rewrite elem_of_set_iter. split.
    + intros (n & Hir & Hn). destruct (decide _) as [Hex|]; [|by apply elem_of_nil in Hir].
      apply list_elem_of_singleton in Hir as ->. simpl. eauto.
    + intros (mi & [= <-] & Hn & Hex & ->). simpl in *.
      exists (import_name ir). split; [|done].
      destruct (decide _); [|done]. apply list_elem_of_singleton. done.
  - split; [intros Hin; by apply elem_of_nil in Hin|]. by intros (mi & ? & _).
Qed.

Lemma elem_of_implicit_reexports removed_imports ir :
  ir ∈ _find_implicit_reexports o graph (_find_reexported_imports o graph removed_imports) ↔
  ∃ module_info,
    nodes graph !! source_file ir = Some module_info ∧
    import_name ir ∈ od_get (_find_reexported_imports o graph removed_imports) (source_file ir) ∧
    (import_name ir ∉ exports module_info) ∧
    used_by ir = find_used_by graph (source_file ir) (import_name ir).
Proof.
  unfold _find_implicit_reexports. rewrite list_elem_of_bind.
  pose proof (find_reexported_imports_NoDup removed_imports) as Hnd.
  split.
  - intros ([f s] & Hir & Hitem).
    apply elem_of_implicit_of_file in Hir as (mi & Hmi & Hn & Hex & ->). simpl in *.
    exists mi. by rewrite (od_get_item _ _ _ Hnd Hitem).
  - intros (mi & Hmi & Hn & Hex & Hused).
    apply od_get_elem in Hn as (s & Hitem & Hn).
    exists (source_file ir, s). split; [|done].
    apply elem_of_implicit_of_file. exists mi. simpl.
    destruct ir as [f n u]. simpl in *. by subst.
Qed.

End Implicit.

(** C3, as amended. The implicit re-exports of the result are exactly the
    records of a node [f], a name [n] that [f] re-exports under the final
    removal map and that is not among the names of the [__all__] of [f], and
    the importers of [n] from [f]; whether [f] has an [__all__] at all plays
    no part. *)
Theorem implicit_reexports_exact
    (read_text : Path → ReadError + string)
    (find_unused_imports : string → list ImportInfo)
    (find_cycles : ImportGraph → list (list Path))
    (o : IterOrder) (graph : ImportGraph) :
  ∃ all_removed r,
    cascade o graph (_get_single_file_unused read_text find_unused_imports graph)
      = Some all_removed ∧
    analyze read_text find_unused_imports find_cycles o graph = Some r ∧
    ∀ ir, ir ∈ implicit_reexports r ↔
      ∃ module_info,
        nodes graph !! source_file ir = Some module_info ∧
        import_name ir ∈ reexported_from o graph all_removed (source_file ir) ∧
        (import_name ir ∉ exports module_info) ∧
        used_by ir = find_used_by graph (source_file ir) (import_name ir).
Proof.
  destruct (analyze_stable read_text find_unused_imports find_cycles o graph)
    as (k & Hk & _ & Hr). simpl in *.
  eexists _, _. split; [exact Hk|]. split; [exact Hr|]. simpl.
  intros ir. apply elem_of_implicit_reexports.
Qed.

Open Scope string_scope.

(** C3, as stated, fails: [b.py] has no [__all__], and the name [X] that it
    re-exports to [a.py] is reported as an implicit re-export. *)
Lemma implicit_reexport_without_all :
  ∃ r,
    analyze (read_from plain_fs) (detect_from plain_table) no_cycles
      canonical_order plain_graph = Some r ∧
    implicit_reexports r = [mkImplicitReexport "b.py" "X" {["a.py"]}] ∧
    has_all <$> nodes plain_graph !! "b.py" = Some false.
Proof.
  eexists. split; [vm_compute; reflexivity|]. split; vm_compute; reflexivity.
Qed.

(** C4 at its failing input: [a2.py] imports [X] from [b.py] without using
    it, so [X] is in the final removal set of [a2.py]; [a2.py] is listed in
    [used_by] all the same, next to [a1.py], which does use [X]. *)
Theorem used_by_lists_removed_importer :
  ∃ all_removed r,
    cascade canonical_order fork_graph
      (_get_single_file_unused (read_from fork_fs) (detect_from fork_table) fork_graph)
      = Some all_removed ∧
    analyze (read_from fork_fs) (detect_from fork_table) no_cycles
      canonical_order fork_graph = Some r ∧
    implicit_reexports r = [mkImplicitReexport "b.py" "X" {["a1.py"; "a2.py"]}] ∧
    removed_of all_removed "a2.py" = {["X"]} ∧
    unused_imports r !! "a2.py" = Some [imp_X "b"].
Proof.
  eexists _, _. split; [vm_compute; reflexivity|].
  split; [vm_compute; reflexivity|]. repeat split; vm_compute; reflexivity.
Qed.

(** The part of C4 that holds: every file in [used_by] is the importer of
    an edge of the graph that imports the name from the source file, and
    every such importer is in [used_by]. *)
Lemma used_by_are_importers (graph : ImportGraph) f n p :
  p ∈ find_used_by graph f n ↔
  ∃ edge, edge ∈ edges graph ∧ imported edge = Some f ∧ n ∈ names edge ∧
          importer edge = p.
Proof.
  unfold find_used_by, get_importers.
  rewrite elem_of_list_to_set, list_elem_of_fmap.
  setoid_rewrite list_elem_of_filter. setoid_rewrite list_elem_of_filter.
  naive_solver.
Qed.

(** C7 at a concrete input: in the chain of S5, [b.py] cannot be read. *)
Lemma read_failure_skips_file_witness :
  read_from chain_fs_unreadable "b.py" = inl OSError ∧
  (_get_single_file_unused (read_from chain_fs_unreadable) (detect_from chain_table)
     chain_graph !! "b.py" = None ∧
   (∀ f' module_info source,
      nodes chain_graph !! f' = Some module_info →
      read_from chain_fs_unreadable f' = inr source →
      flagged (_get_single_file_unused (read_from chain_fs_unreadable)
                 (detect_from chain_table) chain_graph) f'
      = detect_from chain_table source) ∧
   ∃ all_removed r,
     cascade canonical_order chain_graph
       (_get_single_file_unused (read_from chain_fs_unreadable)
          (detect_from chain_table) chain_graph) = Some all_removed ∧
     analyze (read_from chain_fs_unreadable) (detect_from chain_table) no_cycles
       canonical_order chain_graph = Some r ∧
     unused_imports r !! "b.py" = None ∧
     (∀ f', nodes chain_graph !! f' = None → unused_imports r !! f' = None) ∧
     (∀ f' module_info source,
        nodes chain_graph !! f' = Some module_info →
        read_from chain_fs_unreadable f' = inr source →
        default [] (unused_imports r !! f')
        = filter (λ b, name b ∈ removed_of all_removed f')
            (detect_from chain_table source) ∧
        ∀ b, b ∈ detect_from chain_table source →
          name b ∈ removed_of all_removed f' ↔
          name b ∉ reexported_from canonical_order chain_graph all_removed f') ∧
     implicit_reexports r
       = _find_implicit_reexports canonical_order chain_graph
           (_find_reexported_imports canonical_order chain_graph (Some all_removed)) ∧
     external_usage r = _aggregate_external_usage chain_graph ∧
     circular_imports r = no_cycles chain_graph).
Proof.
  split; [reflexivity|].
  apply (read_failure_skips_file (read_from chain_fs_unreadable)
           (detect_from chain_table) no_cycles canonical_order chain_graph
           "b.py" OSError).
  reflexivity.
Defined.

(** C9, as stated, fails: with the names of a set visited in one order or
    in the other, the two runs list the implicit re-exports of [b.py] in
    different orders. *)
Lemma implicit_reexports_order_depends_on_set_order :
  ∃ r1 r2,
    analyze (read_from pair_fs) (detect_from pair_table) no_cycles
      canonical_order pair_graph = Some r1 ∧
    analyze (read_from pair_fs) (detect_from pair_table) no_cycles
      reversed_order pair_graph = Some r2 ∧
    import_name <$> implicit_reexports r1 = ["Y"; "X"] ∧
    import_name <$> implicit_reexports r2 = ["X"; "Y"].
Proof.
  eexists _, _. split; [vm_compute; reflexivity|].
  split; [vm_compute; reflexivity|]. split; vm_compute; reflexivity.
Qed.

Close Scope string_scope.

(** ** Independence of the iteration orders *)

Lemma foldl_comm_perm {A B} (f : A → B → A) (l1 l2 : list B) :
  (∀ a x y, f (f a x) y = f (f a y) x) →
  l1 ≡ₚ l2 → ∀ a, foldl f a l1 = foldl f a l2.
Proof.
  intros Hcomm Hperm. induction Hperm as [|x l1 l2 _ IH|x y l|l1 l2 l3 _ IH1 _ IH2];
    intros a; simpl.
  - done.
  - apply IH.
  - by rewrite Hcomm.
  - by rewrite IH1.
Qed.

Lemma od_add_comm d k x y :
  od_add (od_add d k x) k y = od_add (od_add d k y) k x.
Proof.
  induction d as [|[k' s] d IH]; simpl.
  - rewrite !decide_True by done. f_equal. f_equal. set_solver.
  - destruct (decide (k' = k)) as [->|Hne]; simpl.
    + rewrite !decide_True by done. f_equal. f_equal. set_solver.
    + rewrite !decide_False by done. by rewrite IH.
Qed.

Lemma reexport_name_comm imported_file module_info d x y :
  reexport_name imported_file module_info (reexport_name imported_file module_info d x) y
  = reexport_name imported_file module_info (reexport_name imported_file module_info d y) x.
Proof.
  unfold reexport_name.
  destruct (decide (x ∈ _ ∧ x ∉ _)); destruct (decide (y ∈ _ ∧ y ∉ _)); try done.
  apply od_add_comm.
Qed.

Section Orders.

Variable graph : ImportGraph.
Variable o1 o2 : IterOrder.

Lemma set_iter_orders s : set_iter o1 s ≡ₚ set_iter o2 s.
Proof. by rewrite (set_iter_perm o1), (set_iter_perm o2). Qed.

Lemma reexport_edge_orders m1 m2 d edge :
  same_removed m1 m2 →
  reexport_edge o1 graph m1 d edge = reexport_edge o2 graph m2 d edge.
Proof.
  intros Hsame. unfold reexport_edge. rewrite (Hsame (importer edge)).
  destruct (is_external edge); [done|].
  destruct (imported edge) as [imported_file|]; [|done].
  destruct (decide _); [done|].
  destruct (nodes graph !! imported_file) as [module_info|]; [|done].
  apply foldl_comm_perm; [apply reexport_name_comm|apply set_iter_orders].
Qed.

Lemma find_reexported_imports_orders m1 m2 :
  same_removed m1 m2 →
  _find_reexported_imports o1 graph (Some m1)
  = _find_reexported_imports o2 graph (Some m2).
Proof.
  intros Hsame. unfold _find_reexported_imports. simpl.
  generalize ([] : odict). induction (edges graph) as [|e es IH]; intros d; simpl; [done|].
  by rewrite (reexport_edge_orders m1 m2 d e Hsame), IH.
Qed.

Lemma reexported_from_orders m1 m2 f :
  same_removed m1 m2 →
  reexported_from o1 graph m1 f = reexported_from o2 graph m2 f.
Proof.
  intros Hsame. unfold reexported_from.
  by rewrite (find_reexported_imports_orders m1 m2 Hsame).
Qed.

Variable sfu : gmap Path (list ImportInfo).

Lemma turn_orders m1 m2 :
  same_removed m1 m2 →
  same_removed (turn o1 graph sfu m1) (turn o2 graph sfu m2).
Proof.
  intros Hsame f. apply set_eq. intros n.
  by rewrite !turn_removed, (Hsame f), (reexported_from_orders m1 m2 f Hsame).
Qed.

Lemma removed_after_orders k :
  same_removed (removed_after o1 graph sfu k) (removed_after o2 graph sfu k).
Proof.
  induction k as [|k IH]; simpl; [done|]. by apply turn_orders.
Qed.

Lemma build_unused_imports_orders m1 m2 :
  same_removed m1 m2 →
  build_unused_imports sfu m1 = build_unused_imports sfu m2.
Proof.
  intros Hsame. apply map_eq. intros f.
  by rewrite !build_unused_imports_lookup, (Hsame f).
Qed.

Lemma implicit_of_file_orders item :
  implicit_of_file o1 graph item ≡ₚ implicit_of_file o2 graph item.
Proof.
  destruct item as [file_path reexported_names]. unfold implicit_of_file.
  destruct (nodes graph !! file_path); [|done].
  by rewrite (set_iter_orders reexported_names).
Qed.

Lemma implicit_of_file_source o item :
  source_file <$> implicit_of_file o graph item
  = replicate (length (implicit_of_file o graph item)) item.1.
Proof.
  destruct item as [file_path reexported_names]. unfold implicit_of_file. simpl.
  destruct (nodes graph !! file_path); [|done].
  induction (set_iter o reexported_names) as [|n l IH]; [done|].
  rewrite bind_cons, fmap_app, length_app, replicate_add, IH. f_equal.
  by destruct (decide _).
Qed.

Lemma find_implicit_reexports_orders reexported :
  _find_implicit_reexports o1 graph reexported
    ≡ₚ _find_implicit_reexports o2 graph reexported ∧
  source_file <$> _find_implicit_reexports o1 graph reexported
    = source_file <$> _find_implicit_reexports o2 graph reexported.
Proof.
  unfold _find_implicit_reexports.
  induction reexported as [|item reexported [IHp IHs]]; [done|].
  rewrite !bind_cons. split.
  - by rewrite IHp, (implicit_of_file_orders item).
  - rewrite !fmap_app, IHs, !implicit_of_file_source.
    by rewrite (Permutation_length (implicit_of_file_orders item)).
Qed.

End Orders.

Lemma removed_after_stable o graph sfu k j :
  turn_changed o graph sfu (removed_after o graph sfu k) = false →
  removed_after o graph sfu (k + j) = removed_after o graph sfu k.
Proof.
  intros Hstable. induction j as [|j IH].
  - by rewrite Nat.add_0_r.
  - rewrite Nat.add_succ_r. simpl. rewrite IH. by apply turn_unchanged.
Qed.

(** C9, as amended. Two runs of [analyze] on the same graph, the names of
    a set and the items of the single-file table being visited in any two
    orders, both return a result; the two results have the same
    [unused_imports], [external_usage] and [circular_imports], and their
    lists of implicit re-exports hold the same records, with the source files
    in the same sequence: only the order of the names of one source file
    follows the order in which its set of names is visited. *)
Theorem analyze_deterministic_up_to_name_order
    (read_text : Path → ReadError + string)
    (find_unused_imports : string → list ImportInfo)
    (find_cycles : ImportGraph → list (list Path))
    (graph : ImportGraph) (o1 o2 : IterOrder) :
  ∃ r1 r2,
    analyze read_text find_unused_imports find_cycles o1 graph = Some r1 ∧
    analyze read_text find_unused_imports find_cycles o2 graph = Some r2 ∧
    unused_imports r1 = unused_imports r2 ∧
    implicit_reexports r1 ≡ₚ implicit_reexports r2 ∧
    source_file <$> implicit_reexports r1 = source_file <$> implicit_reexports r2 ∧
    external_usage r1 = external_usage r2 ∧
    circular_imports r1 = circular_imports r2.
Proof.
  destruct (analyze_stable read_text find_unused_imports find_cycles o1 graph)
    as (k1 & _ & Hst1 & Hr1).
  destruct (analyze_stable read_text find_unused_imports find_cycles o2 graph)
    as (k2 & _ & Hst2 & Hr2).
  simpl in *.
  set (sfu := _get_single_file_unused read_text find_unused_imports graph) in *.
  assert (same_removed (removed_after o1 graph sfu k1) (removed_after o2 graph sfu k2))
    as Hsame.
  { rewrite <- (removed_after_stable o1 graph sfu k1 k2 Hst1).
    rewrite <- (removed_after_stable o2 graph sfu k2 k1 Hst2).
    rewrite (Nat.add_comm k2 k1). apply removed_after_orders. }
  eexists _, _. split; [exact Hr1|]. split; [exact Hr2|]. simpl.
  split; [by apply build_unused_imports_orders|].
  rewrite (find_reexported_imports_orders graph o1 o2 _ _ Hsame).
  pose proof (find_implicit_reexports_orders graph o1 o2
    (_find_reexported_imports o2 graph (Some (removed_after o2 graph sfu k2))))
    as [Hperm Hsrc].
  done.
Qed.

(** ** The scenarios of the cascade *)

Open Scope string_scope.

(** Scenario S5: along the chain both imports of [X] are reported, the
    one of [b.py] once the one of [a.py] is taken as removed. *)
Example scenario_reexport_cascade :
  ∃ r,
    analyze (read_from chain_fs) (detect_from chain_table) no_cycles
      canonical_order chain_graph = Some r ∧
    unused_imports r = {[ "a.py" := [imp_X "b"]; "b.py" := [imp_X "c"] ]} ∧
    implicit_reexports r = [].
Proof.
  eexists. split; [vm_compute; reflexivity|]. split; vm_compute; reflexivity.
Qed.

(** Scenario S6: [X] is not reported in [b.py], and it is an implicit
    re-export of [b.py], used by [a.py]. *)
Example scenario_implicit_reexport :
  ∃ r,
    analyze (read_from listed_fs) (detect_from listed_table) no_cycles
      canonical_order listed_graph = Some r ∧
    unused_imports r = ∅ ∧
    implicit_reexports r = [mkImplicitReexport "b.py" "X" {["a.py"]}].
Proof.
  eexists. split; [vm_compute; reflexivity|]. split; vm_compute; reflexivity.
Qed.

Close Scope string_scope.

(** ** Further properties of the re-export table *)

Lemma od_add_nonempty d k n :
  Forall (λ item, item.2 ≠ ∅) d → Forall (λ item, item.2 ≠ ∅) (od_add d k n).
Proof.
  induction d as [|[k' s] d IH]; simpl; intros Hd.
  - constructor; [simpl; set_solver|constructor].
  - apply Forall_cons in Hd as [Hs Hd]. destruct (decide (k' = k)).
    + constructor; [simpl; set_solver|done].
    + constructor; [done|by apply IH].
Qed.

Lemma reexport_edge_nonempty o graph removed d edge :
  Forall (λ item, item.2 ≠ ∅) d →
  Forall (λ item, item.2 ≠ ∅) (reexport_edge o graph removed d edge).
Proof.
  intros Hd. unfold reexport_edge.
  destruct (is_external edge); [done|].
  destruct (imported edge) as [imported_file|]; [|done].
  destruct (decide _); [done|].
  destruct (nodes graph !! imported_file) as [module_info|]; [|done].
  revert d Hd. induction (set_iter o _) as [|x l IH]; intros d Hd; simpl; [done|].
  apply IH. unfold reexport_name. destruct (decide _); [|done].
  by apply od_add_nonempty.
Qed.

Lemma find_reexported_imports_nonempty o graph removed_imports :
  Forall (λ item, item.2 ≠ ∅) (_find_reexported_imports o graph removed_imports).
Proof.
  unfold _find_reexported_imports.
  assert (∀ es d, Forall (λ item : Path * gset string, item.2 ≠ ∅) d →
    Forall (λ item, item.2 ≠ ∅)
      (foldl (reexport_edge o graph (default ∅ removed_imports)) d es)) as H.
  { induction es as [|e es IH]; intros d Hd; simpl; [done|].
    by apply IH, reexport_edge_nonempty. }
  apply H. constructor.
Qed.

(** X2. The table that [_find_reexported_imports] returns has one item per
    file, no item with an empty set of names, and only items of graph nodes
    that some edge not marked external imports. *)
Theorem reexported_items_wellformed (o : IterOrder) (graph : ImportGraph)
    (removed_imports : option (gmap Path (gset string))) :
  NoDup (_find_reexported_imports o graph removed_imports).*1 ∧
  Forall (λ item,
      item.2 ≠ ∅ ∧ is_Some (nodes graph !! item.1) ∧
      ∃ edge, edge ∈ edges graph ∧ is_external edge = false ∧
              imported edge = Some item.1)
    (_find_reexported_imports o graph removed_imports).
Proof.
  pose proof (find_reexported_imports_NoDup o graph removed_imports) as Hnd.
  split; [done|]. apply Forall_forall. intros [f s] Hitem. simpl.
  pose proof (proj1 (Forall_forall _ _)
    (find_reexported_imports_nonempty o graph removed_imports) _ Hitem) as Hs.
  simpl in Hs. split; [done|].
  apply set_choose_L in Hs as [n Hn].
  rewrite <- (od_get_item _ _ _ Hnd Hitem) in Hn.
  apply elem_of_reexported in Hn
    as (edge & Hedge & Hext & Himp & _ & _ & mi & Hmi & _).
  split; [by rewrite Hmi|]. eauto.
Qed.

(** X3. Taking more names as removed from the importers can only shrink
    what a file re-exports. *)
Theorem reexports_shrink_as_removals_grow (o : IterOrder) (graph : ImportGraph)
    (m1 m2 : gmap Path (gset string)) (f : Path) :
  (∀ f', removed_of m1 f' ⊆ removed_of m2 f') →
  reexported_from o graph m2 f ⊆ reexported_from o graph m1 f.
Proof.
  intros Hsub n. unfold reexported_from. rewrite !elem_of_reexported.
  intros (edge & Hedge & Hext & Himp & Hn & Hrm & Hmi).
  exists edge. split; [done|]. repeat split; try done.
  intros Hin. apply Hrm. simpl in *. by apply Hsub.
Qed.

Open Scope string_scope.

Lemma reexports_shrink_as_removals_grow_witness :
  (∀ f', removed_of ∅ f' ⊆ removed_of chain_removed_a f') ∧
  reexported_from canonical_order chain_graph chain_removed_a "b.py"
  ⊆ reexported_from canonical_order chain_graph ∅ "b.py".
Proof.
  assert (∀ f', removed_of ∅ f' ⊆ removed_of chain_removed_a f') as Hsub.
  { intros f'. rewrite removed_of_empty. apply empty_subseteq. }
  split; [exact Hsub|].
  apply (reexports_shrink_as_removals_grow canonical_order chain_graph
           ∅ chain_removed_a "b.py" Hsub).
Defined.

Close Scope string_scope.

(** ** Further properties of the single-file table and of the report *)

Section Report.

Variable read_text : Path → ReadError + string.
Variable find_unused_imports : string → list ImportInfo.
Variable find_cycles : ImportGraph → list (list Path).
Variable o : IterOrder.
Variable graph : ImportGraph.

(** X5. Every list of [unused_imports] belongs to a node of the graph whose
    source could be read, and is a non-empty sublist of what the single-file
    analyzer finds in that source: the cross-file analysis reports nothing
    that the single-file analysis did not flag. *)
Theorem reported_only_if_flagged :
  ∃ r,
    analyze read_text find_unused_imports find_cycles o graph = Some r ∧
    ∀ f l, unused_imports r !! f = Some l →
      ∃ module_info source,
        nodes graph !! f = Some module_info ∧ read_text f = inr source ∧
        l ≠ [] ∧ l `sublist_of` find_unused_imports source.
Proof.
  destruct (analyze_stable read_text find_unused_imports find_cycles o graph)
    as (k & _ & _ & Hr). simpl in Hr.
  eexists. split; [exact Hr|]. simpl. intros f l.
  rewrite build_unused_imports_lookup. unfold flagged.
  rewrite get_single_file_unused_lookup.
  destruct (nodes graph !! f) as [module_info|]; [|by simpl].
  destruct (read_text f) as [err|source]; [by simpl|].
  intros Hl. exists module_info, source. split; [done|]. split; [done|].
  match type of Hl with context [filter ?P ?l0] =>
    pose proof (sublist_filter P l0) as Hsub;
    destruct (filter P l0) as [|b l'] eqn:Hfilter; [done|] end.
  injection Hl as <-. split; [done|].
  etransitivity; [exact Hsub|]. by destruct (find_unused_imports source).
Qed.

(** X6. A name that a file still re-exports at the end of the cascade is
    never reported unused in that file; in particular no implicit re-export
    is also reported unused in its source file. *)
Theorem reexported_never_reported :
  ∃ all_removed r,
    cascade o graph (_get_single_file_unused read_text find_unused_imports graph)
      = Some all_removed ∧
    analyze read_text find_unused_imports find_cycles o graph = Some r ∧
    (∀ f b, b ∈ default [] (unused_imports r !! f) →
       name b ∉ reexported_from o graph all_removed f) ∧
    (∀ ir b, ir ∈ implicit_reexports r →
       b ∈ default [] (unused_imports r !! source_file ir) →
       name b ≠ import_name ir).
Proof.
  destruct (analyze_stable read_text find_unused_imports find_cycles o graph)
    as (k & Hk & _ & Hr). simpl in *.
  eexists _, _. split; [exact Hk|]. split; [exact Hr|]. simpl.
  assert (∀ f b,
    b ∈ default [] (build_unused_imports
      (_get_single_file_unused read_text find_unused_imports graph)
      (removed_after o graph
        (_get_single_file_unused read_text find_unused_imports graph) k) !! f) →
    name b ∉ reexported_from o graph (removed_after o graph
      (_get_single_file_unused read_text find_unused_imports graph) k) f) as Hnot.
  { intros f b. rewrite build_unused_imports_default.
    intros [Hb _]%list_elem_of_filter. by apply not_reexported_after. }
  split; [exact Hnot|].
  intros ir b Hir Hb Heq. apply (Hnot _ _ Hb). rewrite Heq.
  by apply elem_of_implicit_reexports in Hir as (mi & _ & Hn & _).
Qed.

(** X7. The bindings of one file that bear the same name are reported
    together or not at all: removal goes by name. *)
Theorem same_name_reported_together :
  ∃ r,
    analyze read_text find_unused_imports find_cycles o graph = Some r ∧
    ∀ f b1 b2,
      b1 ∈ flagged (_get_single_file_unused read_text find_unused_imports graph) f →
      b2 ∈ flagged (_get_single_file_unused read_text find_unused_imports graph) f →
      name b1 = name b2 →
      b1 ∈ default [] (unused_imports r !! f) →
      b2 ∈ default [] (unused_imports r !! f).
Proof.
  destruct (analyze_stable read_text find_unused_imports find_cycles o graph)
    as (k & _ & _ & Hr). simpl in Hr.
  eexists. split; [exact Hr|]. simpl. intros f b1 b2 Hb1 Hb2 Heq.
  rewrite build_unused_imports_default, !list_elem_of_filter.
  intros [Hin _]. split; [by rewrite <- Heq|done].
Qed.

End Report.

(** ** Further properties of the implicit re-exports *)

Lemma implicit_of_file_NoDup o graph item :
  NoDup (implicit_of_file o graph item).
Proof.
  destruct item as [file_path reexported_names]. unfold implicit_of_file.
  destruct (nodes graph !! file_path) as [module_info|]; [|constructor].
  apply NoDup_bind.
  - intros n1 n2 ir _ _ H1 H2.
    destruct (decide (n1 ∉ _)); [|by apply elem_of_nil in H1].
    destruct (decide (n2 ∉ _)); [|by apply elem_of_nil in H2].
    apply list_elem_of_singleton in H1, H2. congruence.
  - intros n _. destruct (decide _); [apply NoDup_singleton|constructor].
  - rewrite (set_iter_perm o). apply NoDup_elements.
Qed.

Lemma find_implicit_reexports_NoDup o graph removed_imports :
  NoDup (_find_implicit_reexports o graph
           (_find_reexported_imports o graph removed_imports)).
Proof.
  pose proof (find_reexported_imports_NoDup o graph removed_imports) as Hnd.
  unfold _find_implicit_reexports. apply NoDup_bind.
  - intros [f1 s1] [f2 s2] ir H1 H2 Hir1 Hir2.
    apply elem_of_implicit_of_file in Hir1 as (_ & _ & _ & _ & Heq1).
    apply elem_of_implicit_of_file in Hir2 as (_ & _ & _ & _ & Heq2).
    simpl in *. assert (f1 = f2) as <- by congruence.
    by rewrite <- (od_get_item _ _ _ Hnd H1), <- (od_get_item _ _ _ Hnd H2).
  - intros item _. apply implicit_of_file_NoDup.
  - by apply NoDup_fmap_1 in Hnd.
Qed.

Section Implicit_report.

Variable read_text : Path → ReadError + string.
Variable find_unused_imports : string → list ImportInfo.
Variable find_cycles : ImportGraph → list (list Path).
Variable o : IterOrder.
Variable graph : ImportGraph.

(** X8. Every implicit re-export has, in its [used_by], the importer of an
    edge of the graph that is not marked external, imports the name from the
    source file, and is such that the name is not in the final removal set of
    the importer, so that no import reported unused in the importer bears
    that name.  (A removal set holds the names that the imports bind: when
    the importer binds the name under an alias, this does not say that the
    aliased import is kept.) *)
Theorem used_by_has_a_user :
  ∃ all_removed r,
    cascade o graph (_get_single_file_unused read_text find_unused_imports graph)
      = Some all_removed ∧
    analyze read_text find_unused_imports find_cycles o graph = Some r ∧
    ∀ ir, ir ∈ implicit_reexports r →
      ∃ edge,
        edge ∈ edges graph ∧ is_external edge = false ∧
        imported edge = Some (source_file ir) ∧
        import_name ir ∈ names edge ∧
        importer edge ∈ used_by ir ∧
        (import_name ir ∉ removed_of all_removed (importer edge)) ∧
        ∀ b, b ∈ default [] (unused_imports r !! importer edge) →
          name b ≠ import_name ir.
Proof.
  destruct (analyze_stable read_text find_unused_imports find_cycles o graph)
    as (k & Hk & _ & Hr). simpl in *.
  eexists _, _. split; [exact Hk|]. split; [exact Hr|]. simpl.
  intros ir Hir.
  apply elem_of_implicit_reexports in Hir as (mi & _ & Hn & _ & Hused).
  apply elem_of_reexported in Hn as (edge & Hedge & Hext & Himp & Hnames & Hrm & _).
  exists edge. repeat split; try done.
  - rewrite Hused. apply used_by_are_importers. eauto.
  - intros b. rewrite build_unused_imports_default.
    intros [Hb _]%list_elem_of_filter Heq. apply Hrm. simpl. by rewrite <- Heq.
Qed.

(** X9. No file and name are listed twice in [implicit_reexports], however
    many edges, parallel ones included, import the name from the file. *)
Theorem implicit_reexports_listed_once :
  ∃ r,
    analyze read_text find_unused_imports find_cycles o graph = Some r ∧
    NoDup ((λ ir, (source_file ir, import_name ir)) <$> implicit_reexports r).
Proof.
  destruct (analyze_stable read_text find_unused_imports find_cycles o graph)
    as (k & _ & _ & Hr). simpl in Hr.
  eexists. split; [exact Hr|]. simpl.
  apply NoDup_fmap_2_strong; [|apply find_implicit_reexports_NoDup].
  intros ir1 ir2 H1 H2 [= Hf Hn].
  apply elem_of_implicit_reexports in H1 as (_ & _ & _ & _ & Hu1).
  apply elem_of_implicit_reexports in H2 as (_ & _ & _ & _ & Hu2).
  destruct ir1, ir2. simpl in *. congruence.
Qed.

End Implicit_report.

(** ** Further properties of the cascade *)

Section Cascade_more.

Variable o : IterOrder.
Variable graph : ImportGraph.
Variable sfu : gmap Path (list ImportInfo).

Lemma removed_after_below_closed m k f :
  closed_under_rule o graph sfu m →
  removed_of (removed_after o graph sfu k) f ⊆ removed_of m f.
Proof.
  intros Hclosed. revert f. induction k as [|k IH]; intros f n; simpl.
  - rewrite removed_of_empty. set_solver.
  - rewrite turn_removed. intros [Hn|[Hre (b & Hb & <-)]]; [by apply IH|].
    apply Hclosed; [done|]. intros Hin. apply Hre.
    by apply (reexported_from_antitone o graph _ m f IH).
Qed.

Lemma stable_closed m :
  turn_changed o graph sfu m = false → closed_under_rule o graph sfu m.
Proof.
  intros Hst f b Hb Hre.
  destruct (decide (name b ∈ removed_of m f)) as [|Hout]; [done|].
  assert (turn_changed o graph sfu m = true) as Htrue
    by (apply turn_changed_true; eauto).
  congruence.
Qed.

(** X10. The removal map that the cascade ends on is the least one that the
    rule of the loop cannot extend: it is such a map itself, and it is
    contained, file by file, in every other one. *)
Theorem cascade_least_closed (m : gmap Path (gset string)) :
  closed_under_rule o graph sfu m →
  ∃ all_removed,
    cascade o graph sfu = Some all_removed ∧
    closed_under_rule o graph sfu all_removed ∧
    ∀ f, removed_of all_removed f ⊆ removed_of m f.
Proof.
  intros Hclosed. destruct (cascade_stable o graph sfu) as (k & Hk & Hst).
  eexists. split; [exact Hk|]. split; [by apply stable_closed|].
  intros f. by apply removed_after_below_closed.
Qed.




End Cascade_more.

(** ** Graphs without internal edges, and imports that keep each other *)

Lemma filter_all {A} (P : A → Prop) `{!∀ x, Decision (P x)} (l : list A) :
  (∀ x, x ∈ l → P x) → filter P l = l.
Proof.
  induction l as [|x l IH]; intros Hall; [done|].
  rewrite filter_cons. destruct (decide (P x)) as [_|Hno].
  - f_equal. apply IH. intros y Hy. apply Hall. by right.
  - exfalso. apply Hno, Hall. left.
Qed.

Lemma reexport_edge_passed_over o graph removed d edge :
  passed_over edge → reexport_edge o graph removed d edge = d.
Proof.
  unfold reexport_edge. intros [->| ->]; [done|]. by destruct (is_external edge).
Qed.

Lemma find_reexported_imports_passed_over o graph removed_imports :
  Forall passed_over (edges graph) →
  _find_reexported_imports o graph removed_imports = [].
Proof.
  unfold _find_reexported_imports. generalize ([] : odict).
  induction (edges graph) as [|e es IH]; intros d Hall; simpl; [done|].
  apply Forall_cons in Hall as [He Hes].
  rewrite reexport_edge_passed_over by done. by apply IH.
Qed.

Section Edge_cases.

Variable read_text : Path → ReadError + string.
Variable find_unused_imports : string → list ImportInfo.
Variable find_cycles : ImportGraph → list (list Path).
Variable o : IterOrder.
Variable graph : ImportGraph.

(** X12. When every edge of the graph is marked external or has no imported
    file, nothing is re-exported: [analyze] reports every single-file unused
    import of every file, and no implicit re-export. *)
Theorem no_internal_edge_reports_single_file :
  Forall passed_over (edges graph) →
  ∃ r,
    analyze read_text find_unused_imports find_cycles o graph = Some r ∧
    unused_imports r = _get_single_file_unused read_text find_unused_imports graph ∧
    implicit_reexports r = [].
Proof.
  intros Hedges.
  destruct (analyze_stable read_text find_unused_imports find_cycles o graph)
    as (k & _ & Hst & Hr). simpl in *.
  eexists. split; [exact Hr|]. simpl.
  split; [|by rewrite find_reexported_imports_passed_over].
  apply map_eq. intros f. rewrite build_unused_imports_lookup.
  rewrite filter_all.
  - unfold flagged. rewrite get_single_file_unused_lookup.
    destruct (nodes graph !! f); [|done].
    destruct (read_text f) as [|source]; [done|].
    by destruct (find_unused_imports source).
  - intros b Hb. apply (stable_closed o graph _ _ Hst f b Hb).
    unfold reexported_from. rewrite find_reexported_imports_passed_over by done.
    simpl. set_solver.
Qed.

(** X13. When every single-file unused import is re-exported by its file
    before anything is removed, the first turn of the loop changes nothing
    and [analyze] reports no unused import at all: imports that only keep
    each other in use, as around an import cycle, are never reported. *)
Theorem all_reexported_reports_nothing :
  (∀ f b,
     b ∈ flagged (_get_single_file_unused read_text find_unused_imports graph) f →
     name b ∈ reexported_from o graph ∅ f) →
  ∃ r,
    cascade o graph (_get_single_file_unused read_text find_unused_imports graph)
      = Some ∅ ∧
    analyze read_text find_unused_imports find_cycles o graph = Some r ∧
    unused_imports r = ∅.
Proof.
  intros Hall.
  assert (turn_changed o graph
    (_get_single_file_unused read_text find_unused_imports graph) ∅ = false) as Hst.
  { destruct (turn_changed _ _ _ ∅) eqn:Hch; [|done].
    apply turn_changed_true in Hch as (f & b & Hb & Hre & _).
    exfalso. by apply Hre, Hall. }
  assert (cascade o graph
    (_get_single_file_unused read_text find_unused_imports graph) = Some ∅) as Hk.
  { unfold cascade. rewrite cascade_loop_S, Hst. f_equal. by apply turn_unchanged. }
  eexists. split; [exact Hk|]. unfold analyze. rewrite Hk. simpl.
  split; [reflexivity|]. simpl. unfold build_unused_imports. apply map_imap_empty.
Qed.

End Edge_cases.

Open Scope string_scope.

Lemma cascade_least_closed_witness :
  closed_under_rule canonical_order chain_graph chain_unused chain_removed_ab ∧
  ∃ all_removed,
    cascade canonical_order chain_graph chain_unused = Some all_removed ∧
    closed_under_rule canonical_order chain_graph chain_unused all_removed ∧
    ∀ f, removed_of all_removed f ⊆ removed_of chain_removed_ab f.
Proof.
  assert (closed_under_rule canonical_order chain_graph chain_unused
            chain_removed_ab) as Hclosed.
  { intros f b Hb _. unfold flagged, chain_unused in Hb.
    destruct (decide (f = "a.py")) as [->|Ha].
    { rewrite lookup_insert_eq in Hb. apply list_elem_of_singleton in Hb as ->.
      vm_compute. reflexivity. }
    rewrite lookup_insert_ne in Hb by done.
    destruct (decide (f = "b.py")) as [->|Hb'].
    { rewrite lookup_singleton_eq in Hb. apply list_elem_of_singleton in Hb as ->.
      vm_compute. reflexivity. }
    rewrite lookup_singleton_ne in Hb by done. by apply elem_of_nil in Hb. }
  split; [exact Hclosed|].
  apply (cascade_least_closed canonical_order chain_graph chain_unused
           chain_removed_ab Hclosed).
Defined.

Lemma no_internal_edge_reports_single_file_witness :
  Forall passed_over (edges external_graph) ∧
  ∃ r,
    analyze (read_from external_fs) (detect_from external_table) no_cycles
      canonical_order external_graph = Some r ∧
    unused_imports r
      = _get_single_file_unused (read_from external_fs) (detect_from external_table)
          external_graph ∧
    implicit_reexports r = [].
Proof.
  assert (Forall passed_over (edges external_graph)) as Hedges.
  { repeat constructor. }
  split; [exact Hedges|].
  apply (no_internal_edge_reports_single_file (read_from external_fs)
           (detect_from external_table) no_cycles canonical_order external_graph
           Hedges).
Defined.

Lemma all_reexported_reports_nothing_witness :
  (∀ f b,
     b ∈ flagged (_get_single_file_unused (read_from cycle_fs)
                    (detect_from cycle_table) cycle_graph) f →
     name b ∈ reexported_from canonical_order cycle_graph ∅ f) ∧
  ∃ r,
    cascade canonical_order cycle_graph
      (_get_single_file_unused (read_from cycle_fs) (detect_from cycle_table)
         cycle_graph) = Some ∅ ∧
    analyze (read_from cycle_fs) (detect_from cycle_table) no_cycles
      canonical_order cycle_graph = Some r ∧
    unused_imports r = ∅.
Proof.
  assert (∀ f b,
     b ∈ flagged (_get_single_file_unused (read_from cycle_fs)
                    (detect_from cycle_table) cycle_graph) f →
     name b ∈ reexported_from canonical_order cycle_graph ∅ f) as Hall.
  { intros f b Hb. unfold flagged in Hb.
    rewrite get_single_file_unused_lookup in Hb.
    destruct (decide (f = "a.py")) as [->|Ha].
    { vm_compute in Hb. apply list_elem_of_singleton in Hb as ->.
      vm_compute. reflexivity. }
    destruct (decide (f = "b.py")) as [->|Hb'].
    { vm_compute in Hb. apply list_elem_of_singleton in Hb as ->.
      vm_compute. reflexivity. }
    unfold cycle_graph in Hb. simpl nodes in Hb.
    rewrite lookup_insert_ne, lookup_singleton_ne in Hb by done.
    by apply elem_of_nil in Hb. }
  split; [exact Hall|].
  apply (all_reexported_reports_nothing (read_from cycle_fs)
           (detect_from cycle_table) no_cycles canonical_order cycle_graph Hall).
Defined.

Close Scope string_scope.

(** ** An import that another file needs *)

(** X14. When a file [p] imports the name [n] from the node [f] through an
    edge that is not external, [n] is the name of an import of [f] that [f]
    does not define itself, and the single-file analyzer flags no import
    named [n] in [p], then no import named [n] is reported unused in [f]. *)
Theorem needed_import_never_reported
    (read_text : Path → ReadError + string)
    (find_unused_imports : string → list ImportInfo)
    (find_cycles : ImportGraph → list (list Path))
    (o : IterOrder) (graph : ImportGraph)
    (edge : ImportEdge) (f : Path) (module_info : ModuleInfo) (n : string) :
  edge ∈ edges graph →
  is_external edge = false →
  imported edge = Some f →
  n ∈ names edge →
  nodes graph !! f = Some module_info →
  n ∈ name <$> imports module_info →
  n ∉ defined_names module_info →
  (∀ b, b ∈ flagged (_get_single_file_unused read_text find_unused_imports graph)
              (importer edge) → name b ≠ n) →
  ∃ r,
    analyze read_text find_unused_imports find_cycles o graph = Some r ∧
    ∀ b, b ∈ default [] (unused_imports r !! f) → name b ≠ n.
Proof.
  intros Hedge Hext Himp Hn Hnode Himport Hdef Huses.
  destruct (analyze_stable read_text find_unused_imports find_cycles o graph)
    as (k & _ & _ & Hr). simpl in Hr.
  eexists. split; [exact Hr|]. simpl. intros b.
  rewrite build_unused_imports_default. intros [Hb _]%list_elem_of_filter Heq.
  apply (not_reexported_after o graph _ k f (name b) Hb).
  unfold reexported_from. apply elem_of_reexported. exists edge. split; [done|].
  rewrite Heq. repeat split; try done.
  - simpl. intros Hin.
    apply (within_flagged_after o graph _ k) in Hin as (b' & Hb' & Hname).
    by apply (Huses b').
  - exists module_info. split; [done|]. split; [|done].
    apply list_elem_of_fmap in Himport as (imp & -> & Himp'). eauto.
Qed.

Open Scope string_scope.

Lemma needed_import_never_reported_witness :
  ∃ r,
    analyze (read_from plain_fs) (detect_from plain_table) no_cycles
      canonical_order plain_graph = Some r ∧
    ∀ b, b ∈ default [] (unused_imports r !! "b.py") → name b ≠ "X".
Proof.
  apply (needed_import_never_reported (read_from plain_fs) (detect_from plain_table)
           no_cycles canonical_order plain_graph
           (mkImportEdge "a.py" (Some "b.py") "b" {["X"]} false)
           "b.py" (mkModuleInfo [imp_X "c"] ∅ false ∅) "X").
  - left.
  - reflexivity.
  - reflexivity.
  - vm_compute. reflexivity.
  - vm_compute. reflexivity.
  - left.
  - vm_compute. discriminate.
  - intros b Hb. vm_compute in Hb. by apply elem_of_nil in Hb.
Defined.

Close Scope string_scope.
